(** * Clotho: scripts/extract-clang-format-translations.py

    A shallow embedding of the translation-template extractor and the
    properties its specification states about it.

    The script is a straight line: read one fixed file as UTF-8 text,
    run [re.findall] with one fixed pattern, print a banner and one block
    per match, fill a dict with two empty-valued keys per match, print the
    dict with [json.dumps].

    Python text is a sequence of Unicode code points; a [str] is a list of
    code points here, a file a list of octets. *)

From Stdlib Require Import Strings.String Strings.Ascii Numbers.DecimalString.
From Stdlib Require Import NArith ZArith Arith Lia Bool List.
Import ListNotations.

Set Warnings "-register-all".

(* ================================================================== *)
(** ** Python strings *)

Definition codepoint := N.
Definition str := list codepoint.

Module Py.

(** An ASCII literal of the source as a [str]. *)
Definition lit (s : string) : str :=
  List.map N_of_ascii (list_ascii_of_string s).

Fixpoint str_eqb (a b : str) : bool :=
  match a, b with
  | [], [] => true
  | x :: a', y :: b' => N.eqb x y && str_eqb a' b'
  | _, _ => false
  end.

(** [sep.join(parts)] *)
Fixpoint join (sep : str) (parts : list str) : str :=
  match parts with
  | [] => []
  | [p] => p
  | p :: rest => p ++ sep ++ join sep rest
  end.

(** [c * n] for a one-character string *)
Definition times (c : codepoint) (n : nat) : str := List.repeat c n.

(** [str(n)] for a non-negative int, as the f-string [{len(matches)}] *)
Definition of_nat (n : nat) : str :=
  lit (NilZero.string_of_uint (Nat.to_uint n)).

Arguments lit s%_string.

(** [str(z)] for an int *)
Definition of_Z (z : Z) : str :=
  lit (NilZero.string_of_int (Z.to_int z)).

(** Exceptions the script can end with. *)
Inductive exn :=
| FileNotFoundError
| PermissionError
| UnicodeDecodeError
| UnicodeEncodeError
| ValueError.

End Py.

(* ================================================================== *)
(** ** The fragment of [re] the pattern uses

    Literals, character classes, greedy repetition of a class ([*] and
    [+]), concatenation and capture groups, matched by backtracking as
    [sre] does: the first successful path wins, a greedy repetition tries
    the longest run first and gives characters back one at a time. *)

Module Re.

Inductive regex :=
| Eps
| Chr (c : codepoint)
| Cls (p : codepoint -> bool)
| Star (p : codepoint -> bool)
| Plus (p : codepoint -> bool)
| Cat (a b : regex)
| Group (a : regex).

(** What a successful match leaves: the unread text and the groups. *)
Definition result := option (str * list str).
Definition cont := str -> list str -> result.

(** Greedy [p*] followed by the continuation [k]. *)
Fixpoint rep (p : codepoint -> bool) (s : str) (caps : list str) (k : cont)
  : result :=
  match s with
  | c :: s' =>
      if p c then
        match rep p s' caps k with
        | Some r => Some r
        | None => k s caps
        end
      else k s caps
  | [] => k [] caps
  end.

Fixpoint m (r : regex) (s : str) (caps : list str) (k : cont) : result :=
  match r with
  | Eps => k s caps
  | Chr c =>
      match s with
      | x :: s' => if N.eqb x c then k s' caps else None
      | [] => None
      end
  | Cls p =>
      match s with
      | x :: s' => if p x then k s' caps else None
      | [] => None
      end
  | Star p => rep p s caps k
  | Plus p =>
      match s with
      | x :: s' => if p x then rep p s' caps k else None
      | [] => None
      end
  | Cat a b => m a s caps (fun s' caps' => m b s' caps' k)
  | Group a =>
      m a s caps
        (fun s' caps' =>
           k s' (caps' ++ [firstn (length s - length s') s]))
  end.

(** [pattern.match(s)]: anchored at the start of [s]. *)
Definition re_match (r : regex) (s : str) : result :=
  m r s [] (fun s' caps => Some (s', caps)).

(** The scan behind [findall]: try every start offset from left to right;
    after a match resume where it ended (one further on after an empty
    match).  [skip] counts the characters still covered by the last match.
    Each match is reported with its start offset. *)
Fixpoint scan (r : regex) (s : str) (pos skip : nat)
  : list (nat * list str) :=
  match s with
  | [] =>
      match skip with
      | 0 =>
          match re_match r [] with
          | Some (_, caps) => [(pos, caps)]
          | None => []
          end
      | S _ => []
      end
  | _ :: s' =>
      match skip with
      | S n => scan r s' (S pos) n
      | 0 =>
          match re_match r s with
          | Some (rest, caps) =>
              (pos, caps) :: scan r s' (S pos) (length s - length rest - 1)
          | None => scan r s' (S pos) 0
          end
      end
  end.

Definition finditer (r : regex) (s : str) : list (nat * list str) :=
  scan r s 0 0.

(** [re.findall(pattern, s)] for a pattern with several groups: the list
    of the groups of every match. *)
Definition findall (r : regex) (s : str) : list (list str) :=
  List.map snd (finditer r s).

(** Concatenation of a list of pieces, and a literal word. *)
Fixpoint seq (rs : list regex) : regex :=
  match rs with
  | [] => Eps
  | r :: rs' => Cat r (seq rs')
  end.

Definition word (s : string) : regex := seq (List.map Chr (Py.lit s)).
Arguments word s%_string.

(** [\s] on a [str] pattern: [Py_UNICODE_ISSPACE]. *)
Definition is_space (c : codepoint) : bool :=
  ((9 <=? c) && (c <=? 13) || (28 <=? c) && (c <=? 32)
   || (c =? 133) || (c =? 160) || (c =? 5760)
   || (8192 <=? c) && (c <=? 8202)
   || (c =? 8232) || (c =? 8233) || (c =? 8239) || (c =? 8287)
   || (c =? 12288))%N.

Definition quote : codepoint := 39%N.
Definition brace : codepoint := 123%N.
Definition comma : codepoint := 44%N.

(** [[^']] *)
Definition not_quote (c : codepoint) : bool := negb (N.eqb c quote).

End Re.

(* ================================================================== *)
(** ** [json.dumps(obj, ensure_ascii=False, indent=2)]

    The values [json] accepts (floats left out), and the pure-Python
    encoder that runs when [indent] is given. *)

Module Json.

Inductive value :=
| Null
| Bool (b : bool)
| Int (z : Z)
| Str (s : str)
| Arr (xs : list value)
| Obj (items : list (str * value)).

Definition hex_digit (n : N) : codepoint :=
  (if n <? 10 then 48 + n else 87 + n)%N.

(** [ESCAPE_DCT]: backslash, double quote and the control characters. *)
Definition escape_char (c : codepoint) : str :=
  (if c =? 92 then Py.lit "\\"
   else if c =? 34 then [92; 34]
   else if c =? 8 then Py.lit "\b"
   else if c =? 12 then Py.lit "\f"
   else if c =? 10 then Py.lit "\n"
   else if c =? 13 then Py.lit "\r"
   else if c =? 9 then Py.lit "\t"
   else if c <? 32 then Py.lit "\u00" ++ [hex_digit (c / 16); hex_digit (c mod 16)]
   else [c])%N.

(** [encode_basestring]: no escaping of non-ASCII characters. *)
Definition encode_basestring (s : str) : str :=
  [34%N] ++ List.flat_map escape_char s ++ [34%N].

(** ["\n" + " " * (indent * level)] with [indent = 2]. *)
Definition newline_indent (level : nat) : str :=
  [10%N] ++ Py.times 32%N (2 * level).

Fixpoint encode (level : nat) (v : value) : str :=
  match v with
  | Null => Py.lit "null"
  | Bool true => Py.lit "true"
  | Bool false => Py.lit "false"
  | Int z => Py.of_Z z
  | Str s => encode_basestring s
  | Arr [] => Py.lit "[]"
  | Arr xs =>
      Py.lit "[" ++ newline_indent (S level)
      ++ Py.join (Py.lit "," ++ newline_indent (S level))
           (List.map (encode (S level)) xs)
      ++ newline_indent level ++ Py.lit "]"
  | Obj [] => Py.lit "{}"
  | Obj items =>
      Py.lit "{" ++ newline_indent (S level)
      ++ Py.join (Py.lit "," ++ newline_indent (S level))
           (List.map
              (fun kv =>
                 match kv with
                 | (k, x) =>
                     encode_basestring k ++ Py.lit ": " ++ encode (S level) x
                 end)
              items)
      ++ newline_indent level ++ Py.lit "}"
  end.

Definition dumps (v : value) : str := encode 0 v.

End Json.

(* ================================================================== *)
(** ** A Python [dict] with [str] keys: insertion-ordered, unique keys *)

Module Dict.

Definition t := list (str * Json.value).

Definition empty : t := [].

(** [d[k] = v]: an existing key keeps its place and takes the new value,
    a new key goes to the end. *)
Fixpoint setitem (d : t) (k : str) (v : Json.value) : t :=
  match d with
  | [] => [(k, v)]
  | (k', v') :: d' =>
      if Py.str_eqb k' k then (k', v) :: d'
      else (k', v') :: setitem d' k v
  end.

Fixpoint get (d : t) (k : str) : option Json.value :=
  match d with
  | [] => None
  | (k', v') :: d' => if Py.str_eqb k' k then Some v' else get d' k
  end.

Definition keys (d : t) : list str := List.map fst d.
Definition values (d : t) : list Json.value := List.map snd d.

(** Place of a key in iteration order. *)
Fixpoint index (ks : list str) (k : str) : option nat :=
  match ks with
  | [] => None
  | k' :: ks' =>
      if Py.str_eqb k' k then Some 0
      else option_map S (index ks' k)
  end.

End Dict.

(* ================================================================== *)
(** ** [json.loads]

    The decoder of the [json] module on a [str]: [scanstring] with
    [strict=True], the loops of [JSONObject] and [JSONArray], and the
    scanner that chooses between them.  Numbers with a fraction or an
    exponent and the constants [NaN] and [Infinity] have no counterpart in
    [Json.value]: on them the model gives [None], as on a text the module
    rejects. *)

Module Loads.

(** [WHITESPACE]: space, tab, line feed, carriage return. *)
Definition is_ws (c : codepoint) : bool :=
  ((c =? 32) || (c =? 9) || (c =? 10) || (c =? 13))%N.

Fixpoint skip_ws (s : str) : str :=
  match s with
  | [] => []
  | c :: r => if is_ws c then skip_ws r else s
  end.

Definition hex_value (c : codepoint) : option N :=
  (if (48 <=? c) && (c <=? 57) then Some (c - 48)
   else if (97 <=? c) && (c <=? 102) then Some (c - 87)
   else if (65 <=? c) && (c <=? 70) then Some (c - 55)
   else None)%N.

(** The four hexadecimal digits after [\u]. *)
Definition decode_uXXXX (a b c d : codepoint) : option N :=
  match hex_value a, hex_value b, hex_value c, hex_value d with
  | Some va, Some vb, Some vc, Some vd =>
      Some (((va * 16 + vb) * 16 + vc) * 16 + vd)%N
  | _, _, _, _ => None
  end.

(** [BACKSLASH] *)
Definition backslash (e : codepoint) : option codepoint :=
  (if e =? 34 then Some 34
   else if e =? 92 then Some 92
   else if e =? 47 then Some 47
   else if e =? 98 then Some 8
   else if e =? 102 then Some 12
   else if e =? 110 then Some 10
   else if e =? 114 then Some 13
   else if e =? 116 then Some 9
   else None)%N.

Definition push (c : codepoint) (r : option (str * str)) : option (str * str) :=
  match r with
  | Some (x, rest) => Some (c :: x, rest)
  | None => None
  end.

(** [scanstring], from the character after the opening quote: the string
    and what follows its closing quote. *)
Fixpoint scanstring (s : str) : option (str * str) :=
  match s with
  | [] => None
  | c :: r =>
      if (c =? 34)%N then Some ([], r)
      else if (c =? 92)%N then
        match r with
        | [] => None
        | e :: r1 =>
            if (e =? 117)%N then
              match r1 with
              | a :: b :: h1 :: h2 :: r2 =>
                  match decode_uXXXX a b h1 h2 with
                  | None => None
                  | Some uni =>
                      if ((55296 <=? uni) && (uni <=? 56319))%N then
                        match r2 with
                        | c1 :: c2 :: r3 =>
                            if ((c1 =? 92) && (c2 =? 117))%N then
                              match r3 with
                              | a2 :: b2 :: h3 :: h4 :: r4 =>
                                  match decode_uXXXX a2 b2 h3 h4 with
                                  | None => None
                                  | Some uni2 =>
                                      if ((56320 <=? uni2) && (uni2 <=? 57343))%N
                                      then
                                        push (65536 + (uni - 55296) * 1024
                                              + (uni2 - 56320))%N
                                          (scanstring r4)
                                      else push uni (scanstring r2)
                                  end
                              | _ => None
                              end
                            else push uni (scanstring r2)
                        | _ => push uni (scanstring r2)
                        end
                      else push uni (scanstring r2)
                  end
              | _ => None
              end
            else
              match backslash e with
              | Some x => push x (scanstring r1)
              | None => None
              end
        end
      else if (c <? 32)%N then None
      else push c (scanstring r)
  end.

Definition is_digit (c : codepoint) : bool := ((48 <=? c) && (c <=? 57))%N.

Fixpoint digits (s : str) : str * str :=
  match s with
  | [] => ([], [])
  | c :: r =>
      if is_digit c then let (ds, rest) := digits r in (c :: ds, rest)
      else ([], s)
  end.

(** [int(integer)] on decimal digits. *)
Definition int (ds : str) : Z :=
  fold_left (fun acc c => (acc * 10 + (Z.of_N c - 48))%Z) ds 0%Z.

(** A fraction [\.[0-9]+] or an exponent [[eE][-+]?[0-9]+] follows. *)
Definition float_follows (s : str) : bool :=
  match s with
  | c :: d :: r =>
      if (c =? 46)%N then is_digit d
      else if ((c =? 101) || (c =? 69))%N then
        if ((d =? 45) || (d =? 43))%N then
          match r with
          | d' :: _ => is_digit d'
          | [] => false
          end
        else is_digit d
      else false
  | _ => false
  end.

(** [NUMBER_RE], integers only. *)
Definition number (s : str) : option (Json.value * str) :=
  let (negative, s1) :=
    match s with
    | c :: r => if (c =? 45)%N then (true, r) else (false, s)
    | [] => (false, s)
    end in
  match s1 with
  | [] => None
  | c :: r =>
      let (ds, rest) :=
        if (c =? 48)%N then ([c], r)
        else let (ds, rest) := digits r in (c :: ds, rest) in
      if negb (is_digit c) || float_follows rest then None
      else Some (Json.Int (if negative then - int ds else int ds)%Z, rest)
  end.

(** [s.startswith(word)], and the rest. *)
Fixpoint after (word s : str) : option str :=
  match word, s with
  | [], _ => Some s
  | c :: word', x :: s' => if (c =? x)%N then after word' s' else None
  | _ :: _, [] => None
  end.

(** [dict(pairs)] *)
Definition dict (pairs : list (str * Json.value)) : Dict.t :=
  fold_left (fun d kv => Dict.setitem d (fst kv) (snd kv)) pairs Dict.empty.

Section Loops.

Variable scan_once : str -> option (Json.value * str).

(** The loop of [JSONObject], from the character after the opening
    quote of a key. *)
Fixpoint members (n : nat) (pairs : list (str * Json.value)) (s : str)
  : option (list (str * Json.value) * str) :=
  match n with
  | O => None
  | S n =>
      match scanstring s with
      | None => None
      | Some (key, s) =>
          match skip_ws s with
          | [] => None
          | c :: s =>
              if negb (c =? 58)%N then None
              else
                match scan_once (skip_ws s) with
                | None => None
                | Some (value, s) =>
                    let pairs := pairs ++ [(key, value)] in
                    match skip_ws s with
                    | [] => None
                    | c :: s =>
                        if (c =? 125)%N then Some (pairs, s)
                        else if negb (c =? 44)%N then None
                        else
                          match skip_ws s with
                          | [] => None
                          | q :: s =>
                              if (q =? 34)%N then members n pairs s else None
                          end
                    end
                end
          end
      end
  end.

(** The loop of [JSONArray], at a value. *)
Fixpoint elements (n : nat) (values : list Json.value) (s : str)
  : option (list Json.value * str) :=
  match n with
  | O => None
  | S n =>
      match scan_once s with
      | None => None
      | Some (value, s) =>
          let values := values ++ [value] in
          match skip_ws s with
          | [] => None
          | c :: s =>
              if (c =? 93)%N then Some (values, s)
              else if negb (c =? 44)%N then None
              else elements n values (skip_ws s)
          end
      end
  end.

End Loops.

(** [_scan_once]; [fuel] bounds the nesting, and the length of the text
    the number of members of an object or an array. *)
Fixpoint scan_once (fuel : nat) (s : str) : option (Json.value * str) :=
  match fuel with
  | O => None
  | S fuel =>
      match s with
      | [] => None
      | c :: r =>
          if (c =? 34)%N then
            match scanstring r with
            | Some (x, rest) => Some (Json.Str x, rest)
            | None => None
            end
          else if (c =? 123)%N then
            match skip_ws r with
            | [] => None
            | q :: r' =>
                if (q =? 125)%N then Some (Json.Obj [], r')
                else if (q =? 34)%N then
                  match members (scan_once fuel) (length r') [] r' with
                  | Some (pairs, rest) => Some (Json.Obj (dict pairs), rest)
                  | None => None
                  end
                else None
            end
          else if (c =? 91)%N then
            match skip_ws r with
            | [] => None
            | q :: r' =>
                if (q =? 93)%N then Some (Json.Arr [], r')
                else
                  match elements (scan_once fuel) (length r) [] (q :: r') with
                  | Some (values, rest) => Some (Json.Arr values, rest)
                  | None => None
                  end
            end
          else
            match after (Py.lit "null") s, after (Py.lit "true") s,
                  after (Py.lit "false") s with
            | Some rest, _, _ => Some (Json.Null, rest)
            | _, Some rest, _ => Some (Json.Bool true, rest)
            | _, _, Some rest => Some (Json.Bool false, rest)
            | None, None, None => number s
            end
      end
  end.


End Loads.

(* ================================================================== *)
(** ** What the process sees: files, arguments, environment *)

Module Os.

Inductive file :=
| Absent
| Unreadable
| Regular (bytes : list Byte.byte).

(** The codec of a text stream with its error handler, character by
    character: the octets a character is written as, or [None] where the
    stream raises [UnicodeEncodeError]. *)
Definition codec := codepoint -> option (list Byte.byte).

(** [s.encode(...)]: all of [s] or nothing. *)
Fixpoint encode (cod : codec) (s : str) : option (list Byte.byte) :=
  match s with
  | [] => Some []
  | c :: r =>
      match cod c with
      | Some b =>
          match encode cod r with
          | Some bs => Some (b ++ bs)
          | None => None
          end
      | None => None
      end
  end.

(** What a started interpreter finds: the files, its arguments, the
    environment variables, the codec its registry gives for a value of
    [PYTHONIOENCODING], and the codec it takes from the locale. *)
Record world := World {
  fs : str -> file;
  argv : list str;
  environ : list (str * str);
  codecs : str -> codec;
  locale : codec
}.

Fixpoint getenv (env : list (str * str)) (name : str) : option str :=
  match env with
  | [] => None
  | (k, v) :: rest => if Py.str_eqb k name then Some v else getenv rest name
  end.

(** The codec of [sys.stdout]: the one named by [PYTHONIOENCODING] when
    the variable is set and not empty, the locale's otherwise. *)
Definition stdout_codec (w : world) : codec :=
  match getenv (environ w) (Py.lit "PYTHONIOENCODING") with
  | Some (c :: v) => codecs w (c :: v)
  | _ => locale w
  end.

(** A stream that takes every character and writes nothing. *)
Definition silent : codec := fun _ => Some [].

Definition octet (n : N) : Byte.byte :=
  match Byte.of_N n with
  | Some b => b
  | None => Byte.x00
  end.

(** The ASCII codec, strict. *)
Definition ascii : codec :=
  fun c => (if c <? 128 then Some [octet c] else None)%N.

(** The UTF-8 codec, strict. *)
Definition utf8 : codec :=
  fun c =>
    (if c <? 128 then Some [octet c]
     else if c <? 2048 then Some [octet (192 + c / 64); octet (128 + c mod 64)]
     else if c <? 65536 then
       if (55296 <=? c) && (c <=? 57343) then None
       else Some [octet (224 + c / 4096); octet (128 + (c / 64) mod 64);
                  octet (128 + c mod 64)]
     else if c <? 1114112 then
       Some [octet (240 + c / 262144); octet (128 + (c / 4096) mod 64);
             octet (128 + (c / 64) mod 64); octet (128 + c mod 64)]
     else None)%N.

Definition is_cont (b : N) : bool := ((128 <=? b) && (b <=? 191))%N.

(** The strict UTF-8 decoder: shortest forms only, no surrogates, nothing
    above U+10FFFF; [None] is [UnicodeDecodeError]. *)
Fixpoint utf8_decode (bs : list Byte.byte) : option str :=
  match bs with
  | [] => Some []
  | b0 :: r0 =>
      let x0 := Byte.to_N b0 in
      (if x0 <? 128 then option_map (cons x0) (utf8_decode r0)
       else if (194 <=? x0) && (x0 <=? 223) then
         match r0 with
         | b1 :: r1 =>
             let x1 := Byte.to_N b1 in
             if is_cont x1
             then option_map (cons ((x0 - 192) * 64 + (x1 - 128)))
                    (utf8_decode r1)
             else None
         | _ => None
         end
       else if (224 <=? x0) && (x0 <=? 239) then
         match r0 with
         | b1 :: b2 :: r2 =>
             let x1 := Byte.to_N b1 in
             let x2 := Byte.to_N b2 in
             if ((if x0 =? 224 then 160 else 128) <=? x1)
                && (x1 <=? (if x0 =? 237 then 159 else 191))
                && is_cont x2
             then option_map
                    (cons ((x0 - 224) * 4096 + (x1 - 128) * 64 + (x2 - 128)))
                    (utf8_decode r2)
             else None
         | _ => None
         end
       else if (240 <=? x0) && (x0 <=? 244) then
         match r0 with
         | b1 :: b2 :: b3 :: r3 =>
             let x1 := Byte.to_N b1 in
             let x2 := Byte.to_N b2 in
             let x3 := Byte.to_N b3 in
             if ((if x0 =? 240 then 144 else 128) <=? x1)
                && (x1 <=? (if x0 =? 244 then 143 else 191))
                && is_cont x2 && is_cont x3
             then option_map
                    (cons ((x0 - 240) * 262144 + (x1 - 128) * 4096
                           + (x2 - 128) * 64 + (x3 - 128)))
                    (utf8_decode r3)
             else None
         | _ => None
         end
       else None)%N
  end.

(** Text mode with the default [newline=None]: ["\r\n"] and a lone
    ["\r"] are read as ["\n"]. *)
Fixpoint universal_newlines (s : str) : str :=
  match s with
  | [] => []
  | c :: rest =>
      if (c =? 13)%N then
        match rest with
        | d :: rest' =>
            if (d =? 10)%N then 10%N :: universal_newlines rest'
            else 10%N :: universal_newlines rest
        | [] => [10%N]
        end
      else c :: universal_newlines rest
  end.

(** [with open(path, 'r', encoding='utf-8') as f: content = f.read()] *)
Definition read_text (w : world) (path : str) : Py.exn + str :=
  match fs w path with
  | Absent => inl Py.FileNotFoundError
  | Unreadable => inl Py.PermissionError
  | Regular bytes =>
      match utf8_decode bytes with
      | None => inl Py.UnicodeDecodeError
      | Some s => inr (universal_newlines s)
      end
  end.

End Os.

(* ================================================================== *)
(** ** The script *)

(** [pattern = r"\{\s*key:\s*'([^']+)',\s*name:\s*'([^']+)',\s*description:\s*'([^']+)',"] *)
Definition pattern : Re.regex :=
  Re.seq
    [ Re.Chr Re.brace; Re.Star Re.is_space;
      Re.word "key:"; Re.Star Re.is_space;
      Re.Chr Re.quote; Re.Group (Re.Plus Re.not_quote); Re.Chr Re.quote;
      Re.Chr Re.comma; Re.Star Re.is_space;
      Re.word "name:"; Re.Star Re.is_space;
      Re.Chr Re.quote; Re.Group (Re.Plus Re.not_quote); Re.Chr Re.quote;
      Re.Chr Re.comma; Re.Star Re.is_space;
      Re.word "description:"; Re.Star Re.is_space;
      Re.Chr Re.quote; Re.Group (Re.Plus Re.not_quote); Re.Chr Re.quote;
      Re.Chr Re.comma ].


Definition source_path : str :=
  Py.lit "src/visual-editor/clang-format/data/clang-format-options-database.ts".

(** How a run ends: normally, or with an uncaught exception; either way
    with the octets that reached standard output. *)
Inductive outcome :=
| Finished (stdout : list Byte.byte)
| Raised (e : Py.exn) (stdout : list Byte.byte).

(** A step of the script: from the octets written so far, an exception
    or a value, and the octets written then. *)
Definition io (A : Type) : Type :=
  list Byte.byte -> Py.exn * list Byte.byte + A * list Byte.byte.

Definition ret {A : Type} (a : A) : io A := fun out => inr (a, out).

Definition bind {A B : Type} (m : io A) (k : A -> io B) : io B :=
  fun out =>
    match m out with
    | inl e => inl e
    | inr (a, out') => k a out'
    end.

Definition raise {A : Type} (e : Py.exn) : io A := fun out => inl (e, out).

Notation "x <- m ;; k" := (bind m (fun x => k))
  (at level 61, m at next level, right associativity).
Notation "m ;; k" := (bind m (fun _ => k))
  (at level 61, right associativity).

Definition rule : str := Py.times 61%N 80.

(** The non-ASCII literals of the source, by code point. *)
Module Text.
(* "找到 " *)
Definition found : str := [25214; 21040; 32]%N.
(* " 个配置项\n" *)
Definition entries : str := [32; 20010; 37197; 32622; 39033; 10]%N.
(* "AI 翻译提示词:" *)
Definition prompt_title : str :=
  Py.lit "AI " ++ [32763; 35793; 25552; 31034; 35789]%N ++ Py.lit ":".
(* "请将以下 clang-format 配置项从中文翻译为英文 JSON 格式。" *)
Definition task : str :=
  [35831; 23558; 20197; 19979]%N ++ Py.lit " clang-format "
  ++ [37197; 32622; 39033; 20174; 20013; 25991; 32763; 35793; 20026;
      33521; 25991]%N
  ++ Py.lit " JSON " ++ [26684; 24335; 12290]%N.
(* "保持专业术语准确性,参考 clang-format 官方文档。" *)
Definition advice : str :=
  [20445; 25345; 19987; 19994; 26415; 35821; 20934; 30830; 24615; 44;
   21442; 32771]%N
  ++ Py.lit " clang-format " ++ [23448; 26041; 25991; 26723; 12290]%N.
(* "输出格式示例:" *)
Definition sample_title : str :=
  [36755; 20986; 26684; 24335; 31034; 20363]%N ++ Py.lit ":".
(* "待翻译内容:" *)
Definition todo_title : str :=
  [24453; 32763; 35793; 20869; 23481]%N ++ Py.lit ":".
(* "配置项: " *)
Definition item : str := [37197; 32622; 39033]%N ++ Py.lit ": ".
(* "  中文名称: " *)
Definition item_name : str :=
  Py.lit "  " ++ [20013; 25991; 21517; 31216]%N ++ Py.lit ": ".
(* "  中文描述: " *)
Definition item_description : str :=
  Py.lit "  " ++ [20013; 25991; 25551; 36848]%N ++ Py.lit ": ".
(* "JSON 模板 (填写英文翻译):" *)
Definition template_title : str :=
  Py.lit "JSON " ++ [27169; 26495]%N ++ Py.lit " ("
  ++ [22635; 20889; 33521; 25991; 32763; 35793]%N ++ Py.lit "):".
End Text.

(** A double quote, which a literal here cannot hold. *)
Definition dq : str := [34%N].

Definition name_key (key : str) : str :=
  Py.lit "clangFormat.option." ++ key ++ Py.lit ".name".

Definition description_key (key : str) : str :=
  Py.lit "clangFormat.option." ++ key ++ Py.lit ".description".

Section Script.

(** The codec of [sys.stdout]. *)
Variable cod : Os.codec.

(** [sys.stdout.write(s)]: [s] is encoded whole, then written. *)
Definition write (s : str) : io unit :=
  fun out =>
    match Os.encode cod s with
    | Some bytes => inr (tt, out ++ bytes)
    | None => inl (Py.UnicodeEncodeError, out)
    end.

(** [print(line)]: the line, then the line break. *)
Definition print (line : str) : io unit := write line ;; write [10%N].

(** Lines 21 to 36: the count line and the fixed prompt. *)
Definition report_header (n : nat) : io unit :=
  print (Text.found ++ Py.of_nat n ++ Text.entries) ;;
  print rule ;;
  print Text.prompt_title ;;
  print rule ;;
  print [] ;;
  print Text.task ;;
  print Text.advice ;;
  print [] ;;
  print Text.sample_title ;;
  print (Py.lit "{") ;;
  print (Py.lit "  " ++ dq ++ Py.lit "clangFormat.option.BasedOnStyle.name"
         ++ dq ++ Py.lit ": " ++ dq ++ Py.lit "Based On Style" ++ dq
         ++ Py.lit ",") ;;
  print (Py.lit "  " ++ dq
         ++ Py.lit "clangFormat.option.BasedOnStyle.description"
         ++ dq ++ Py.lit ": " ++ dq
         ++ Py.lit "The base coding style to inherit from..." ++ dq) ;;
  print (Py.lit "}") ;;
  print [] ;;
  print Text.todo_title ;;
  print [].

(** One turn of [for key, name, description in matches]: the unpacking,
    the four prints and the two assignments. *)
Definition loop_body (m : list str) (translation_data : Dict.t)
  : io Dict.t :=
  match m with
  | [key; name; description] =>
      print (Text.item ++ key) ;;
      print (Text.item_name ++ name) ;;
      print (Text.item_description ++ description) ;;
      print [] ;;
      let translation_data :=
        Dict.setitem translation_data (name_key key) (Json.Str []) in
      let translation_data :=
        Dict.setitem translation_data (description_key key) (Json.Str []) in
      ret translation_data
  | _ => raise Py.ValueError
  end.

Fixpoint for_loop (matches : list (list str)) (translation_data : Dict.t)
  : io Dict.t :=
  match matches with
  | [] => ret translation_data
  | m :: rest =>
      translation_data <- loop_body m translation_data ;;
      for_loop rest translation_data
  end.

(** Lines 50 to 53. *)
Definition report_template (translation_data : Dict.t) : io unit :=
  print ([10%N] ++ rule) ;;
  print Text.template_title ;;
  print rule ;;
  print (Json.dumps (Json.Obj translation_data)).

(** The script from the loaded text on. *)
Definition script (content : str) : io unit :=
  let matches := Re.findall pattern content in
  report_header (List.length matches) ;;
  translation_data <- for_loop matches Dict.empty ;;
  report_template translation_data.

Definition run (content : str) : outcome :=
  match script content [] with
  | inl (e, out) => Raised e out
  | inr (_, out) => Finished out
  end.

End Script.

(** The whole script in a world. *)
Definition main (w : Os.world) : outcome :=
  match Os.read_text w source_path with
  | inl e => Raised e []
  | inr content => run (Os.stdout_codec w) content
  end.

(** The dict the loop leaves when every print goes through, for
    statements about the template alone. *)
Definition template_of (matches : list (list str)) : Dict.t :=
  match for_loop Os.silent matches Dict.empty [] with
  | inl _ => Dict.empty
  | inr (translation_data, _) => translation_data
  end.

(* ================================================================== *)
(** ** Reading the pattern without backtracking

    [Det.run] walks a regex once, left to right, taking the longest run at
    every repetition and never coming back.  It is a second reading of
    the pattern, shown below to agree with the backtracking matcher on
    every input, because each repetition of the pattern is followed by a
    character its class excludes. *)

Module Det.

Fixpoint drop_while (p : codepoint -> bool) (s : str) : str :=
  match s with
  | c :: s' => if p c then drop_while p s' else s
  | [] => []
  end.

Fixpoint take_while (p : codepoint -> bool) (s : str) : str :=
  match s with
  | c :: s' => if p c then c :: take_while p s' else []
  | [] => []
  end.

Fixpoint run (r : Re.regex) (s : str) (caps : list str) : Re.result :=
  match r with
  | Re.Eps => Some (s, caps)
  | Re.Chr c =>
      match s with
      | x :: s' => if N.eqb x c then Some (s', caps) else None
      | [] => None
      end
  | Re.Cls p =>
      match s with
      | x :: s' => if p x then Some (s', caps) else None
      | [] => None
      end
  | Re.Star p => Some (drop_while p s, caps)
  | Re.Plus p =>
      match s with
      | x :: s' => if p x then Some (drop_while p s', caps) else None
      | [] => None
      end
  | Re.Cat a b =>
      match run a s caps with
      | Some (s', caps') => run b s' caps'
      | None => None
      end
  | Re.Group a =>
      match run a s caps with
      | Some (s', caps') =>
          Some (s', caps' ++ [firstn (length s - length s') s])
      | None => None
      end
  end.

(** A continuation that refuses every text starting in the class [p]. *)
Definition blocks (k : Re.cont) (p : codepoint -> bool) : Prop :=
  forall c t caps, p c = true -> k (c :: t) caps = None.

(** [r] can only begin with a character outside [p]. *)
Fixpoint starts_outside (p : codepoint -> bool) (r : Re.regex) : Prop :=
  match r with
  | Re.Chr c => p c = false
  | Re.Cls q => forall c, q c = true -> p c = false
  | Re.Plus q => forall c, q c = true -> p c = false
  | Re.Cat a _ => starts_outside p a
  | Re.Group a => starts_outside p a
  | Re.Eps | Re.Star _ => False
  end.

(** Every repetition inside [r] is followed by something that starts
    outside its class; [last] says what follows [r] itself. *)
Fixpoint guarded (r : Re.regex) (last : (codepoint -> bool) -> Prop) : Prop :=
  match r with
  | Re.Eps | Re.Chr _ | Re.Cls _ => True
  | Re.Star p | Re.Plus p => last p
  | Re.Cat a b => guarded a (fun p => starts_outside p b) /\ guarded b last
  | Re.Group a => guarded a last
  end.

(** Number of capture groups. *)
Fixpoint groups (r : Re.regex) : nat :=
  match r with
  | Re.Cat a b => groups a + groups b
  | Re.Group a => S (groups a)
  | _ => 0
  end.

End Det.

(* ================================================================== *)
(** ** Records as they stand in the source file

    A record is written as an opening brace and the three labelled,
    single-quoted fields in the fixed order, each closed by a quote and a
    comma, with any whitespace where the pattern allows it. *)

Record record_text := RecordText {
  ws_open : str;
  ws_key : str;
  ws_name_label : str;
  ws_name : str;
  ws_description_label : str;
  ws_description : str;
  key : str;
  name : str;
  description : str
}.

(** The record up to the closing quote of its description. *)
Definition text_unclosed (r : record_text) : str :=
  [Re.brace] ++ ws_open r ++ Py.lit "key:" ++ ws_key r
  ++ [Re.quote] ++ key r ++ [Re.quote; Re.comma]
  ++ ws_name_label r ++ Py.lit "name:" ++ ws_name r
  ++ [Re.quote] ++ name r ++ [Re.quote; Re.comma]
  ++ ws_description_label r ++ Py.lit "description:" ++ ws_description r
  ++ [Re.quote] ++ description r ++ [Re.quote].

Definition text (r : record_text) : str := text_unclosed r ++ [Re.comma].

Definition all_space (s : str) : bool := forallb Re.is_space s.
Definition quote_free (s : str) : bool := forallb Re.not_quote s.
Definition brace_free (s : str) : bool :=
  forallb (fun c => negb (N.eqb c Re.brace)) s.
Definition nonempty (s : str) : bool :=
  match s with [] => false | _ => true end.

(** The six gaps hold whitespace only. *)
Definition spaced (r : record_text) : bool :=
  all_space (ws_open r) && all_space (ws_key r)
  && all_space (ws_name_label r) && all_space (ws_name r)
  && all_space (ws_description_label r) && all_space (ws_description r).

(** Well-formed: whitespace in the gaps, fields non-empty and free of
    single quotes. *)
Definition well_formed (r : record_text) : bool :=
  spaced r
  && nonempty (key r) && quote_free (key r)
  && nonempty (name r) && quote_free (name r)
  && nonempty (description r) && quote_free (description r).

(** A file holding exactly the records [items]: text without an opening
    brace, then each record followed by text without an opening brace. *)
Definition file_text (lead : str) (items : list (record_text * str)) : str :=
  lead ++ List.flat_map (fun it => text (fst it) ++ snd it) items.

Definition well_formed_file (lead : str) (items : list (record_text * str))
  : bool :=
  brace_free lead
  && forallb (fun it => well_formed (fst it) && brace_free (snd it)) items.

Definition fields (r : record_text) : list str :=
  [key r; name r; description r].

(** The first group of a match: the record's identifier. *)
Definition key_of (m : list str) : str := List.nth 0 m [].

(** Meeting an identifier: kept where it is if seen, else put last. *)
Definition see (acc : list str) (k : str) : list str :=
  if existsb (Py.str_eqb k) acc then acc else acc ++ [k].

(** The identifiers in the order they are first met. *)
Definition first_seen (ids : list str) : list str :=
  List.fold_left see ids [].

(** The two template entries of an identifier. *)
Definition slots (k : str) : Dict.t :=
  [(name_key k, Json.Str []); (description_key k, Json.Str [])].

(** The text of printed lines: each with its line break. *)
Definition lines (ls : list str) : str :=
  List.flat_map (fun l => l ++ [10%N]) ls.

(** The diagnostic block of a match: its lines, and its text. *)
Definition block_lines (m : list str) : list str :=
  match m with
  | [k; n; d] =>
      [Text.item ++ k; Text.item_name ++ n; Text.item_description ++ d; []]
  | _ => []
  end.

Definition block (m : list str) : str := lines (block_lines m).

(** All the blocks the loop prints. *)
Definition blocks_of (matches : list (list str)) : str :=
  List.flat_map block matches.

(** [a] comes before [b] in the iteration order of [d]. *)
Definition before (d : Dict.t) (a b : str) : Prop :=
  exists i j,
    Dict.index (Dict.keys d) a = Some i
    /\ Dict.index (Dict.keys d) b = Some j
    /\ i < j.

(** The pattern is an opening brace and three labelled fields; one
    labelled field, and the text it reads. *)
Definition labelled (label : string) : list Re.regex :=
  [ Re.Star Re.is_space; Re.word label; Re.Star Re.is_space;
    Re.Chr Re.quote; Re.Group (Re.Plus Re.not_quote); Re.Chr Re.quote;
    Re.Chr Re.comma ].

Definition segment (label : string) (w1 w2 f tail : str) : str :=
  w1 ++ Py.lit label ++ w2 ++ Re.quote :: f ++ Re.quote :: tail.

(** What follows a closing quote must be a comma. *)
Definition after_quote (tail : str) (caps : list str) : Re.result :=
  match tail with
  | c :: t => if N.eqb c Re.comma then Some (t, caps) else None
  | [] => None
  end.

(** The two assignments of one turn of the loop. *)
Definition add_slots (d : Dict.t) (k : str) : Dict.t :=
  Dict.setitem (Dict.setitem d (name_key k) (Json.Str []))
    (description_key k) (Json.Str []).

(** The template that holds the slots of [ks], in order. *)
Definition slots_of (ks : list str) : Dict.t := List.flat_map slots ks.

(* ================================================================== *)
(** ** The statements of the specification *)


(** The two keys generated for an identifier. *)
Definition record_keys (k : str) : list str :=
  [name_key k; description_key k].

Definition identifiers (items : list (record_text * str)) : list str :=
  List.map (fun it => key (fst it)) items.

(** The template of a file. *)
Definition template (content : str) : Dict.t :=
  template_of (Re.findall pattern content).


(** "For two records at file positions i < j, record i's two keys both
    appear before record j's two keys." *)
Definition keys_in_file_order (content : str) : Prop :=
  let ids := List.map key_of (Re.findall pattern content) in
  forall i j ki kj,
    i < j -> nth_error ids i = Some ki -> nth_error ids j = Some kj ->
    forall a b,
      In a (record_keys ki) -> In b (record_keys kj) ->
      before (template content) a b.

(** No match is reported at the opening brace of a record that stands
    after [pre] in a file. *)
Definition excluded (pre record post : str) : Prop :=
  forall caps,
    ~ In (length pre, caps) (Re.finditer pattern (pre ++ record ++ post)).

Definition has_quote (s : str) : bool := existsb (N.eqb Re.quote) s.

(** [s] begins with [w]. *)
Fixpoint starts_with (w s : str) : bool :=
  match w, s with
  | [], _ => true
  | c :: w', x :: s' => N.eqb x c && starts_with w' s'
  | _ :: _, [] => false
  end.

(** The field holds a quote at which the match cannot go on: nothing
    stands before its first quote, or what follows that quote is not a
    comma, or (when a label [next] is still to come) what follows the
    comma, up to the closing quote of the field, is not whitespace and
    then that label. *)
Definition breaks (next : option string) (f : str) : bool :=
  match Det.drop_while Re.not_quote f with
  | [] => false
  | _ :: b =>
      negb (nonempty (Det.take_while Re.not_quote f))
      || match b with
         | [] => true
         | d :: b' =>
             negb (N.eqb d Re.comma)
             || match next with
                | Some label =>
                    negb (starts_with (Py.lit label)
                            (Det.drop_while Re.is_space (b' ++ [Re.quote])))
                | None => false
                end
         end
  end.

(** The first field with a quote breaks. *)
Definition broken (r : record_text) : bool :=
  breaks (Some "name:"%string) (key r)
  || quote_free (key r)
     && (breaks (Some "description:"%string) (name r)
         || quote_free (name r) && breaks None (description r)).

(** A field up to its first quote. *)
Definition cut (f : str) : str := Det.take_while Re.not_quote f.

Definition quoted (r : record_text) : bool :=
  has_quote (key r) || has_quote (name r) || has_quote (description r).

Definition quote_free_fields (r : record_text) : bool :=
  quote_free (key r) && quote_free (name r) && quote_free (description r).

Definition brace_free_fields (r : record_text) : bool :=
  brace_free (key r) && brace_free (name r) && brace_free (description r).

Definition has_empty_field (r : record_text) : bool :=
  negb (nonempty (key r) && nonempty (name r) && nonempty (description r)).

Definition starts_with_comma (s : str) : bool :=
  match s with
  | c :: _ => N.eqb c Re.comma
  | [] => false
  end.

(** Sample records: one space in every gap. *)
Definition plain (k n d : str) : record_text :=
  RecordText [32%N] [32%N] [32%N] [32%N] [32%N] [32%N] k n d.

(** [{ key: 'Alpha', name: '名称A', description: '描述A', type: 'x' }] *)
Definition alpha : record_text :=
  plain (Py.lit "Alpha") [21517; 31216; 65]%N [25551; 36848; 65]%N.


(** A world whose source file holds [bytes]. *)
Definition sample_codecs (name : str) : Os.codec :=
  if Py.str_eqb name (Py.lit "ascii") then Os.ascii else Os.utf8.

Definition world_with (bytes : list Byte.byte) : Os.world :=
  Os.World (fun _ => Os.Regular bytes) [] [] sample_codecs Os.utf8.


Definition rec_a : record_text := plain (Py.lit "A") (Py.lit "n1") (Py.lit "d1").
Definition rec_b : record_text := plain (Py.lit "B") (Py.lit "n2") (Py.lit "d2").
Definition rec_a' : record_text := plain (Py.lit "A") (Py.lit "n3") (Py.lit "d3").

(** Two records with one identifier, and the same around a third. *)
Definition twins : list (record_text * str) :=
  [(rec_a, Py.lit " },"); (rec_a', Py.lit " }")].

Definition a_b_a : list (record_text * str) :=
  [(rec_a, Py.lit " },"); (rec_b, Py.lit " },"); (rec_a', Py.lit " }")].

(** A description with an embedded quote followed by a comma:
    [{ key: 'A', name: 'n', description: 'd',e',]. *)
Definition rec_truncated : record_text :=
  plain (Py.lit "A") (Py.lit "n") (Py.lit "d',e").

(** [{ key: 'A', name: 'it's', description: 'd',] *)
Definition rec_apostrophe : record_text :=
  plain (Py.lit "A") (Py.lit "it's") (Py.lit "d").

(** [{ key: 'A', name: 'n', description: '',] *)
Definition rec_blank : record_text :=
  plain (Py.lit "A") (Py.lit "n") [].

(** The text of a flat object whose values are all the empty string:
    one line per key. *)
Definition flat_line (k : str) : str :=
  Json.encode_basestring k ++ Py.lit ": " ++ dq ++ dq.

Definition flat_object_text (ks : list str) : str :=
  match ks with
  | [] => Py.lit "{}"
  | _ =>
      Py.lit "{" ++ Json.newline_indent 1
      ++ Py.join (Py.lit "," ++ Json.newline_indent 1) (List.map flat_line ks)
      ++ Json.newline_indent 0 ++ Py.lit "}"
  end.




Definition world_absent : Os.world :=
  Os.World (fun _ => Os.Absent) [] [] sample_codecs Os.utf8.
Definition world_unreadable : Os.world :=
  Os.World (fun _ => Os.Unreadable) [] [] sample_codecs Os.utf8.
(** A file cut in the middle of a three-octet character. *)
Definition world_undecodable : Os.world :=
  world_with [Byte.x7b; Byte.xe5; Byte.x90].

(** "A record with an embedded single quote in one of its fields
    contributes no match", wherever the record stands. *)
Definition quoted_record_excluded (r : record_text) : Prop :=
  forall pre post, excluded pre (text r) post.

(** [{ key: 'A', name: 'n', description: 'd'] followed by [ }]. *)
Definition rec_last : record_text :=
  plain (Py.lit "A") (Py.lit "n") (Py.lit "d").

(** The sample record laid out over several lines, tabs and all. *)
Definition alpha_multiline : record_text :=
  RecordText [10; 32; 32]%N [9]%N [10; 32; 32]%N [] [10; 9; 12288]%N
    [32; 32]%N (Py.lit "Alpha") [21517; 31216; 65]%N [25551; 36848; 65]%N.

(** Reading an escaped string body back, to show that the escaping of
    [json.dumps] loses nothing. *)
Definition hex_value (c : codepoint) : option N :=
  (if (48 <=? c) && (c <=? 57) then Some (c - 48)
   else if (97 <=? c) && (c <=? 102) then Some (c - 87)
   else None)%N.

Definition simple_escape (e : codepoint) : option codepoint :=
  (if e =? 92 then Some 92
   else if e =? 34 then Some 34
   else if e =? 98 then Some 8
   else if e =? 102 then Some 12
   else if e =? 110 then Some 10
   else if e =? 114 then Some 13
   else if e =? 116 then Some 9
   else None)%N.

Fixpoint unescape (s : str) : option str :=
  match s with
  | [] => Some []
  | c :: r =>
      if (c =? 92)%N then
        match r with
        | e :: r1 =>
            if (e =? 117)%N then
              match r1 with
              | a :: b :: h1 :: h2 :: r2 =>
                  match hex_value a, hex_value b, hex_value h1, hex_value h2 with
                  | Some va, Some vb, Some v1, Some v2 =>
                      option_map
                        (cons (((va * 16 + vb) * 16 + v1) * 16 + v2)%N)
                        (unescape r2)
                  | _, _, _, _ => None
                  end
              | _ => None
              end
            else
              match simple_escape e with
              | Some x => option_map (cons x) (unescape r1)
              | None => None
              end
        | [] => None
        end
      else if ((c =? 34) || (c <? 32))%N then None
      else option_map (cons c) (unescape r)
  end.

(** A character [json.dumps] leaves as it is. *)
Definition plain_char (c : codepoint) : bool :=
  (negb (c <? 32) && negb (c =? 34) && negb (c =? 92))%N.

(** ** The decoder seen one character at a time

    A second reading of [Os.utf8_decode], used to reason about it: a lead
    octet announces how many continuation octets follow; they are taken
    while they are 128 or above, and the sequence is then checked. *)

Definition high (b : Byte.byte) : bool := (128 <=? Byte.to_N b)%N.

Fixpoint take_high (n : nat) (r : list Byte.byte)
  : option (list N * list Byte.byte) :=
  match n with
  | 0 => Some ([], r)
  | S n' =>
      match r with
      | b :: r' =>
          if high b then
            match take_high n' r' with
            | Some (cs, rest) => Some (Byte.to_N b :: cs, rest)
            | None => None
            end
          else None
      | [] => None
      end
  end.

Definition width (x0 : N) : nat :=
  if ((194 <=? x0) && (x0 <=? 223))%N then 1
  else if ((224 <=? x0) && (x0 <=? 239))%N then 2
  else if ((240 <=? x0) && (x0 <=? 244))%N then 3
  else 0.

Definition sequence_value (x0 : N) (cs : list N) : option N :=
  (match cs with
   | [x1] =>
       if (194 <=? x0) && (x0 <=? 223) && Os.is_cont x1
       then Some ((x0 - 192) * 64 + (x1 - 128)) else None
   | [x1; x2] =>
       if (224 <=? x0) && (x0 <=? 239)
          && (((if x0 =? 224 then 160 else 128) <=? x1)
              && (x1 <=? (if x0 =? 237 then 159 else 191))
              && Os.is_cont x2)
       then Some ((x0 - 224) * 4096 + (x1 - 128) * 64 + (x2 - 128))
       else None
   | [x1; x2; x3] =>
       if (240 <=? x0) && (x0 <=? 244)
          && (((if x0 =? 240 then 144 else 128) <=? x1)
              && (x1 <=? (if x0 =? 244 then 143 else 191))
              && Os.is_cont x2 && Os.is_cont x3)
       then Some ((x0 - 240) * 262144 + (x1 - 128) * 4096
                  + (x2 - 128) * 64 + (x3 - 128))
       else None
   | _ => None
   end)%N.

(** The same file with Windows line endings: every line feed preceded by
    a carriage return. *)
Definition crlf_byte (b : Byte.byte) : list Byte.byte :=
  if Byte.eqb b Byte.x0a then [Byte.x0d; Byte.x0a] else [b].

Definition to_crlf (bs : list Byte.byte) : list Byte.byte :=
  List.flat_map crlf_byte bs.

Definition crlf_char (c : codepoint) : str :=
  if (c =? 10)%N then [13; 10]%N else [c].

Definition crlf_text (s : str) : str := List.flat_map crlf_char s.

(* ================================================================== *)
(** ** The output as text

    What the script hands to [print], line by line, and what reaches the
    stream when a line cannot be encoded. *)








Fixpoint print_lines (cod : Os.codec) (ls : list str) : io unit :=
  match ls with
  | [] => ret tt
  | l :: rest => print cod l ;; print_lines cod rest
  end.

(** The octets written before the first write that fails. *)
Fixpoint written (cod : Os.codec) (ls : list str) : list Byte.byte :=
  match ls with
  | [] => []
  | l :: rest =>
      match Os.encode cod l with
      | None => []
      | Some b =>
          match Os.encode cod [10%N] with
          | None => b
          | Some nl => b ++ nl ++ written cod rest
          end
      end
  end.

(* ================================================================== *)
(** ** Files that hold exactly some records *)













(* ================================================================== *)
(** * Properties *)

(** ** The matcher on the pattern's fragment *)

Section Matcher.

Lemma rep_span (p : codepoint -> bool) (k : Re.cont) :
  Det.blocks k p ->
  forall s caps, Re.rep p s caps k = k (Det.drop_while p s) caps.
Proof.
  intros Hk s caps. induction s as [|c s IH]; simpl; [reflexivity|].
  destruct (p c) eqn:Hc; [|reflexivity].
  rewrite IH. destruct (k (Det.drop_while p s) caps); [reflexivity|].
  apply Hk, Hc.
Qed.

Lemma starts_outside_blocks (p : codepoint -> bool) (r : Re.regex) :
  Det.starts_outside p r ->
  forall k, Det.blocks (fun s caps => Re.m r s caps k) p.
Proof.
  induction r as [|c|q|q|q|a IHa b IHb|a IHa]; simpl; intros H k x t caps Hx;
    try contradiction.
  - destruct (N.eqb_spec x c) as [->|]; [congruence|reflexivity].
  - destruct (q x) eqn:Hq; [|reflexivity]. rewrite (H _ Hq) in Hx. discriminate.
  - destruct (q x) eqn:Hq; [|reflexivity]. rewrite (H _ Hq) in Hx. discriminate.
  - apply (IHa H _ x t caps Hx).
  - apply (IHa H _ x t caps Hx).
Qed.

(** On a guarded regex the backtracking matcher is the single pass. *)
Lemma m_run (r : Re.regex) :
  forall (last : (codepoint -> bool) -> Prop) (k : Re.cont),
    Det.guarded r last ->
    (forall p, last p -> Det.blocks k p) ->
    forall s caps,
      Re.m r s caps k =
      match Det.run r s caps with
      | Some (s', caps') => k s' caps'
      | None => None
      end.
Proof.
  induction r as [|c|q|q|q|a IHa b IHb|a IHa]; simpl; intros last k G K s caps.
  - reflexivity.
  - destruct s as [|x s]; [reflexivity|]. destruct (N.eqb x c); reflexivity.
  - destruct s as [|x s]; [reflexivity|]. destruct (q x); reflexivity.
  - apply rep_span, K, G.
  - destruct s as [|x s]; [reflexivity|]. destruct (q x); [|reflexivity].
    apply rep_span, K, G.
  - destruct G as [Ga Gb].
    rewrite (IHa _ _ Ga (fun p H => @starts_outside_blocks p b H k)).
    destruct (Det.run a s caps) as [[s' caps']|]; [|reflexivity].
    apply (IHb _ _ Gb K).
  - rewrite (IHa last _ G).
    + destruct (Det.run a s caps) as [[s' caps']|]; reflexivity.
    + intros p Hp c t caps' Hc. apply (K p Hp), Hc.
Qed.

Lemma run_groups (r : Re.regex) :
  forall s caps s' caps',
    Det.run r s caps = Some (s', caps') ->
    length caps' = length caps + Det.groups r.
Proof.
  induction r as [|c|q|q|q|a IHa b IHb|a IHa]; simpl; intros s caps s' caps' H.
  - inversion H; subst; lia.
  - destruct s as [|x s]; [discriminate|].
    destruct (N.eqb x c); inversion H; subst; lia.
  - destruct s as [|x s]; [discriminate|].
    destruct (q x); inversion H; subst; lia.
  - inversion H; subst; lia.
  - destruct s as [|x s]; [discriminate|].
    destruct (q x); inversion H; subst; lia.
  - destruct (Det.run a s caps) as [[s1 caps1]|] eqn:Ha; [|discriminate].
    apply IHa in Ha. apply IHb in H. lia.
  - destruct (Det.run a s caps) as [[s1 caps1]|] eqn:Ha; [|discriminate].
    apply IHa in Ha. inversion H; subst. rewrite length_app. simpl. lia.
Qed.

End Matcher.

Lemma pattern_guarded : Det.guarded pattern (fun _ => False).
Proof.
  unfold pattern. cbn. repeat split; reflexivity.
Qed.

(** The pattern never needs to backtrack: [pattern.match] is the single
    left-to-right pass. *)
Lemma re_match_pattern (s : str) :
  Re.re_match pattern s = Det.run pattern s [].
Proof.
  unfold Re.re_match.
  rewrite (@m_run pattern (fun _ => False) _ pattern_guarded).
  - destruct (Det.run pattern s []) as [[s' caps]|]; reflexivity.
  - intros p [].
Qed.

(** ** The pattern on the text of a record *)

Lemma run_seq_app (xs ys : list Re.regex) (s : str) (caps : list str) :
  Det.run (Re.seq (xs ++ ys)) s caps =
  match Det.run (Re.seq xs) s caps with
  | Some (s', caps') => Det.run (Re.seq ys) s' caps'
  | None => None
  end.
Proof.
  revert s caps. induction xs as [|x xs IH]; intros s caps; simpl.
  - reflexivity.
  - destruct (Det.run x s caps) as [[s1 caps1]|]; [apply IH|reflexivity].
Qed.

Lemma run_chars (cs s : str) (caps : list str) :
  Det.run (Re.seq (List.map Re.Chr cs)) (cs ++ s) caps = Some (s, caps).
Proof.
  induction cs as [|c cs IH]; simpl; [reflexivity|].
  rewrite N.eqb_refl. exact IH.
Qed.

Lemma drop_while_app (p : codepoint -> bool) (w s : str) :
  forallb p w = true ->
  Det.drop_while p (w ++ s) = Det.drop_while p s.
Proof.
  induction w as [|c w IH]; simpl; [reflexivity|].
  intros H. apply andb_prop in H as [Hc Hw]. rewrite Hc. auto.
Qed.

Lemma firstn_app_minus (f s : str) :
  firstn (length (f ++ s) - length s) (f ++ s) = f.
Proof.
  rewrite length_app, Nat.add_sub. rewrite firstn_app, Nat.sub_diag.
  rewrite firstn_all. simpl. apply app_nil_r.
Qed.

(** A quote-free field is read up to its closing quote, and refused when
    it is empty. *)
Lemma run_field (f s : str) (caps : list str) :
  quote_free f = true ->
  Det.run (Re.Group (Re.Plus Re.not_quote)) (f ++ Re.quote :: s) caps =
  if nonempty f then Some (Re.quote :: s, caps ++ [f]) else None.
Proof.
  intros Hf. destruct f as [|c f]; [reflexivity|].
  cbn [Det.run nonempty app]. simpl in Hf.
  apply andb_prop in Hf as [Hc Hf]. rewrite Hc.
  rewrite (drop_while_app Re.not_quote f (Re.quote :: s) Hf).
  cbn [Det.drop_while]. change (Re.not_quote Re.quote) with false. cbn iota.
  f_equal. f_equal. f_equal. f_equal.
  change (c :: f ++ Re.quote :: s) with ((c :: f) ++ Re.quote :: s).
  apply firstn_app_minus.
Qed.

Lemma run_labelled (label : string) (w1 w2 f tail : str) (caps : list str) :
  Det.starts_outside Re.is_space (Re.word label) ->
  all_space w1 = true -> all_space w2 = true -> quote_free f = true ->
  Det.run (Re.seq (labelled label)) (segment label w1 w2 f tail) caps =
  if nonempty f then after_quote tail (caps ++ [f]) else None.
Proof.
  intros Hl H1 H2 Hf. unfold labelled, segment.
  cbn [Re.seq]. cbn [Det.run].
  rewrite (drop_while_app Re.is_space w1 _ H1).
  assert (Hd : forall t, Det.drop_while Re.is_space (Py.lit label ++ t)
                         = Py.lit label ++ t).
  { intros t. unfold Re.word in Hl. destruct (Py.lit label) as [|c cs].
    - simpl in Hl. contradiction.
    - simpl in Hl. simpl. rewrite Hl. reflexivity. }
  rewrite Hd. unfold Re.word. rewrite run_chars.
  rewrite (drop_while_app Re.is_space w2 _ H2).
  cbn [Det.drop_while]. change (Re.is_space Re.quote) with false. cbn iota.
  rewrite N.eqb_refl.
  pose proof (run_field f tail caps Hf) as Hr. cbn [Det.run] in Hr. rewrite Hr.
  destruct (nonempty f); [|reflexivity].
  rewrite N.eqb_refl. unfold after_quote.
  destruct tail as [|c t]; [reflexivity|].
  destruct (N.eqb c Re.comma); reflexivity.
Qed.

Lemma pattern_labelled :
  pattern =
  Re.Cat (Re.Chr Re.brace)
    (Re.seq (labelled "key:" ++ labelled "name:" ++ labelled "description:")).
Proof. reflexivity. Qed.

Lemma text_segments (r : record_text) (post : str) :
  text_unclosed r ++ post =
  Re.brace ::
    segment "key:" (ws_open r) (ws_key r) (key r)
      (Re.comma ::
         segment "name:" (ws_name_label r) (ws_name r) (name r)
           (Re.comma ::
              segment "description:" (ws_description_label r)
                (ws_description r) (description r) post)).
Proof.
  unfold text_unclosed, segment. repeat rewrite <- app_assoc. reflexivity.
Qed.

Lemma spaced_inv (r : record_text) :
  spaced r = true ->
  all_space (ws_open r) = true /\ all_space (ws_key r) = true
  /\ all_space (ws_name_label r) = true /\ all_space (ws_name r) = true
  /\ all_space (ws_description_label r) = true
  /\ all_space (ws_description r) = true.
Proof.
  unfold spaced. intros H.
  repeat (apply andb_prop in H as [H ?]). repeat split; assumption.
Qed.

(** One labelled field of the pattern on a segment whose field may hold
    anything after a quote-free start [f]. *)
Lemma run_key_segment (w1 w2 f tail : str) (caps : list str) :
  all_space w1 = true -> all_space w2 = true -> quote_free f = true ->
  Det.run (Re.seq (labelled "key:")) (segment "key:" w1 w2 f tail) caps =
  if nonempty f then after_quote tail (caps ++ [f]) else None.
Proof. apply run_labelled. reflexivity. Qed.

Lemma run_name_segment (w1 w2 f tail : str) (caps : list str) :
  all_space w1 = true -> all_space w2 = true -> quote_free f = true ->
  Det.run (Re.seq (labelled "name:")) (segment "name:" w1 w2 f tail) caps =
  if nonempty f then after_quote tail (caps ++ [f]) else None.
Proof. apply run_labelled. reflexivity. Qed.

Lemma run_description_segment (w1 w2 f tail : str) (caps : list str) :
  all_space w1 = true -> all_space w2 = true -> quote_free f = true ->
  Det.run (Re.seq (labelled "description:"))
    (segment "description:" w1 w2 f tail) caps =
  if nonempty f then after_quote tail (caps ++ [f]) else None.
Proof. apply run_labelled. reflexivity. Qed.

Lemma run_brace (rest : list Re.regex) (s : str) (caps : list str) :
  Det.run (Re.Cat (Re.Chr Re.brace) (Re.seq rest)) (Re.brace :: s) caps =
  Det.run (Re.seq rest) s caps.
Proof. reflexivity. Qed.

(** The pattern on a record with whitespace in the gaps and quote-free
    fields: it matches exactly when no field is empty and a comma follows
    the description's closing quote, and then captures the three fields. *)
Lemma run_record (r : record_text) (post : str) :
  spaced r = true ->
  quote_free (key r) = true -> quote_free (name r) = true ->
  quote_free (description r) = true ->
  Det.run pattern (text_unclosed r ++ post) [] =
  if nonempty (key r) && nonempty (name r) && nonempty (description r)
  then after_quote post (fields r) else None.
Proof.
  intros Hs Hk Hn Hd.
  destruct (spaced_inv r Hs) as (S1 & S2 & S3 & S4 & S5 & S6).
  rewrite pattern_labelled, text_segments, run_brace.
  rewrite run_seq_app, run_key_segment by assumption.
  destruct (nonempty (key r)); [|reflexivity].
  cbn [after_quote]. rewrite N.eqb_refl.
  rewrite run_seq_app, run_name_segment by assumption.
  destruct (nonempty (name r)); [|reflexivity].
  cbn [after_quote]. rewrite N.eqb_refl.
  rewrite run_description_segment by assumption.
  destruct (nonempty (description r)); reflexivity.
Qed.

Lemma well_formed_inv (r : record_text) :
  well_formed r = true ->
  spaced r = true
  /\ nonempty (key r) = true /\ quote_free (key r) = true
  /\ nonempty (name r) = true /\ quote_free (name r) = true
  /\ nonempty (description r) = true /\ quote_free (description r) = true.
Proof.
  unfold well_formed. intros H.
  do 6 (apply andb_prop in H as [H ?]). repeat split; assumption.
Qed.

(** A well-formed record is matched whole and gives its three fields. *)
Lemma match_well_formed (r : record_text) (post : str) :
  well_formed r = true ->
  Re.re_match pattern (text r ++ post) = Some (post, fields r).
Proof.
  intros H. destruct (well_formed_inv r H) as (Hs & K1 & K2 & N1 & N2 & D1 & D2).
  rewrite re_match_pattern. unfold text. rewrite <- app_assoc.
  rewrite run_record by assumption. rewrite K1, N1, D1. reflexivity.
Qed.

(** Nothing but an opening brace starts a match. *)
Lemma match_needs_brace (c : codepoint) (s : str) :
  N.eqb c Re.brace = false -> Re.re_match pattern (c :: s) = None.
Proof.
  intros H. rewrite re_match_pattern, pattern_labelled.
  cbn [Det.run]. rewrite H. reflexivity.
Qed.

Lemma match_empty : Re.re_match pattern [] = None.
Proof. reflexivity. Qed.

(** *** Reading a match back *)

Lemma take_drop_while (p : codepoint -> bool) (s : str) :
  Det.take_while p s ++ Det.drop_while p s = s.
Proof.
  induction s as [|c s IH]; simpl; [reflexivity|].
  destruct (p c); simpl; [rewrite IH|]; reflexivity.
Qed.

Lemma take_while_all (p : codepoint -> bool) (s : str) :
  forallb p (Det.take_while p s) = true.
Proof.
  induction s as [|c s IH]; simpl; [reflexivity|].
  destruct (p c) eqn:E; simpl; [rewrite E; exact IH|reflexivity].
Qed.

Lemma run_chars_inv (cs s s' : str) (caps caps' : list str) :
  Det.run (Re.seq (List.map Re.Chr cs)) s caps = Some (s', caps') ->
  s = cs ++ s' /\ caps' = caps.
Proof.
  revert s. induction cs as [|c cs IH]; simpl; intros s H.
  - inversion H. split; reflexivity.
  - destruct s as [|x s]; [discriminate|].
    destruct (N.eqb_spec x c) as [->|]; [|discriminate].
    destruct (IH s H) as [-> ->]. split; reflexivity.
Qed.

Lemma run_field_inv (s s' : str) (caps caps' : list str) :
  Det.run (Re.Group (Re.Plus Re.not_quote)) s caps = Some (s', caps') ->
  exists f,
    s = f ++ s' /\ nonempty f = true /\ quote_free f = true
    /\ caps' = caps ++ [f].
Proof.
  cbn [Det.run]. destruct s as [|x t]; [discriminate|].
  destruct (Re.not_quote x) eqn:Hx; [|discriminate].
  intros H. inversion H; subst. clear H.
  exists (x :: Det.take_while Re.not_quote t).
  assert (E : x :: t = (x :: Det.take_while Re.not_quote t)
                       ++ Det.drop_while Re.not_quote t)
    by (simpl; rewrite take_drop_while; reflexivity).
  split; [exact E|]. split; [reflexivity|]. split.
  - simpl. rewrite Hx. apply take_while_all.
  - f_equal. f_equal.
    pose proof (firstn_app_minus (x :: Det.take_while Re.not_quote t)
                  (Det.drop_while Re.not_quote t)) as F.
    rewrite <- E in F. exact F.
Qed.

Lemma run_labelled_inv (label : string) (s s' : str) (caps caps' : list str) :
  Det.run (Re.seq (labelled label)) s caps = Some (s', caps') ->
  exists w1 w2 f,
    s = segment label w1 w2 f (Re.comma :: s')
    /\ all_space w1 = true /\ all_space w2 = true
    /\ quote_free f = true /\ nonempty f = true
    /\ caps' = caps ++ [f].
Proof.
  unfold labelled. cbn [Re.seq]. cbn [Det.run]. unfold Re.word.
  destruct (Det.run (Re.seq (List.map Re.Chr (Py.lit label)))
              (Det.drop_while Re.is_space s) caps)
    as [[s1 c1]|] eqn:Hw; [|discriminate].
  apply run_chars_inv in Hw as [E1 ->].
  destruct (Det.drop_while Re.is_space s1) as [|q s3] eqn:E2; [discriminate|].
  destruct (N.eqb_spec q Re.quote) as [->|]; [|discriminate].
  pose proof (run_field_inv s3) as Hf. cbn [Det.run] in Hf.
  destruct s3 as [|x t]; [discriminate|].
  destruct (Re.not_quote x) eqn:Hx; [|discriminate].
  destruct (Hf (Det.drop_while Re.not_quote t) caps _ eq_refl)
    as (f & E3 & Nf & Qf & ->).
  destruct (Det.drop_while Re.not_quote t) as [|q2 s5]; [discriminate|].
  destruct (N.eqb_spec q2 Re.quote) as [->|]; [|discriminate].
  destruct s5 as [|c s6]; [discriminate|].
  destruct (N.eqb_spec c Re.comma) as [->|]; [|discriminate].
  intros H. inversion H; subst s' caps'. clear H.
  exists (Det.take_while Re.is_space s), (Det.take_while Re.is_space s1), f.
  split; [|repeat split; try assumption; apply take_while_all].
  unfold segment.
  rewrite <- (take_drop_while Re.is_space s) at 1. f_equal.
  rewrite E1. f_equal.
  rewrite <- (take_drop_while Re.is_space s1) at 1. f_equal.
  rewrite E2. f_equal. exact E3.
Qed.

(** Whatever the pattern matches is the text of a well-formed record. *)
Lemma match_inv (s rest : str) (caps : list str) :
  Re.re_match pattern s = Some (rest, caps) ->
  exists r, well_formed r = true /\ s = text r ++ rest /\ caps = fields r.
Proof.
  rewrite re_match_pattern, pattern_labelled. intros H3.
  destruct s as [|c s]; cbn [Det.run] in H3; [discriminate H3|].
  destruct (N.eqb_spec c Re.brace) as [->|]; [|discriminate H3].
  rewrite run_seq_app in H3.
  destruct (Det.run (Re.seq (labelled "key:")) s []) as [[s1 c1]|] eqn:H1;
    [|discriminate H3].
  rewrite run_seq_app in H3.
  destruct (Det.run (Re.seq (labelled "name:")) s1 c1) as [[s2 c2]|] eqn:H2;
    [|discriminate H3].
  apply run_labelled_inv in H1 as (a1 & a2 & k & E1 & A1 & A2 & Qk & Nk & ->).
  apply run_labelled_inv in H2 as (b1 & b2 & n & E2 & B1 & B2 & Qn & Nn & ->).
  apply run_labelled_inv in H3 as (d1 & d2 & d & E3 & D1 & D2 & Qd & Nd & ->).
  exists (RecordText a1 a2 b1 b2 d1 d2 k n d).
  split; [|split; [|reflexivity]].
  - unfold well_formed, spaced. cbn [ws_open ws_key ws_name_label ws_name
      ws_description_label ws_description key name description].
    rewrite A1, A2, B1, B2, D1, D2, Qk, Nk, Qn, Nn, Qd, Nd. reflexivity.
  - unfold text. rewrite <- app_assoc, text_segments.
    cbn [ws_open ws_key ws_name_label ws_name
      ws_description_label ws_description key name description app].
    rewrite E1, E2, E3. reflexivity.
Qed.

(** ** The scan of [findall] *)

Section Scan.

Variable r : Re.regex.

Lemma scan_skip (a s : str) (pos : nat) :
  Re.scan r (a ++ s) pos (length a) = Re.scan r s (pos + length a) 0.
Proof.
  revert pos. induction a as [|c a IH]; intros pos; simpl.
  - rewrite Nat.add_0_r. reflexivity.
  - rewrite IH. f_equal. lia.
Qed.

Lemma scan_hit (c : codepoint) (a s : str) (caps : list str) (pos : nat) :
  Re.re_match r (c :: a ++ s) = Some (s, caps) ->
  Re.scan r (c :: a ++ s) pos 0 =
  (pos, caps) :: Re.scan r s (pos + S (length a)) 0.
Proof.
  intros H. cbn [Re.scan]. rewrite H. f_equal.
  assert (E : length (c :: a ++ s) - length s - 1 = length a)
    by (cbn [length]; rewrite length_app; lia).
  rewrite E, scan_skip. f_equal. lia.
Qed.

Lemma scan_miss (c : codepoint) (s : str) (pos : nat) :
  Re.re_match r (c :: s) = None ->
  Re.scan r (c :: s) pos 0 = Re.scan r s (S pos) 0.
Proof. intros H. cbn [Re.scan]. rewrite H. reflexivity. Qed.

(** The groups found do not depend on where the count of offsets starts. *)
Lemma scan_groups_shift (s : str) (pos pos' skip : nat) :
  List.map snd (Re.scan r s pos skip) = List.map snd (Re.scan r s pos' skip).
Proof.
  revert pos pos' skip. induction s as [|c s IH]; intros pos pos' skip.
  - simpl. destruct skip; [|reflexivity].
    destruct (Re.re_match r []) as [[? ?]|]; reflexivity.
  - cbn [Re.scan]. destruct skip as [|n]; [|apply IH].
    destruct (Re.re_match r (c :: s)) as [[rest caps]|].
    + simpl. f_equal. apply IH.
    + apply IH.
Qed.

(** Every reported offset is one where the pattern matches. *)
Lemma scan_sound (s : str) :
  forall pos skip p caps,
    In (p, caps) (Re.scan r s pos skip) ->
    pos <= p /\ exists rest,
      Re.re_match r (skipn (p - pos) s) = Some (rest, caps).
Proof.
  induction s as [|c s IH]; intros pos skip p caps H.
  - simpl in H. destruct skip; [|contradiction].
    destruct (Re.re_match r []) as [[rest caps']|] eqn:E; [|contradiction].
    destruct H as [H|[]]. inversion H; subst.
    split; [lia|]. exists rest. rewrite Nat.sub_diag. exact E.
  - cbn [Re.scan] in H. destruct skip as [|n].
    + destruct (Re.re_match r (c :: s)) as [[rest caps']|] eqn:E.
      * destruct H as [H|H].
        -- inversion H; subst. split; [lia|]. exists rest.
           rewrite Nat.sub_diag. exact E.
        -- apply IH in H as [Hp [rest' Hm]]. split; [lia|]. exists rest'.
           replace (p - pos) with (S (p - S pos)) by lia. exact Hm.
      * apply IH in H as [Hp [rest' Hm]]. split; [lia|]. exists rest'.
        replace (p - pos) with (S (p - S pos)) by lia. exact Hm.
    + apply IH in H as [Hp [rest' Hm]]. split; [lia|]. exists rest'.
      replace (p - pos) with (S (p - S pos)) by lia. exact Hm.
Qed.

End Scan.

(** No match is reported at an offset where the pattern fails. *)
Lemma finditer_not_at (pre s : str) (caps : list str) :
  Re.re_match pattern s = None ->
  ~ In (length pre, caps) (Re.finditer pattern (pre ++ s)).
Proof.
  intros Hnone Hin. apply scan_sound in Hin as [_ [rest Hm]].
  rewrite Nat.sub_0_r, skipn_app, Nat.sub_diag, skipn_all in Hm.
  simpl in Hm. congruence.
Qed.

Lemma findall_nil : Re.findall pattern [] = [].
Proof. reflexivity. Qed.

Lemma findall_hit (c : codepoint) (a s : str) (caps : list str) :
  Re.re_match pattern (c :: a ++ s) = Some (s, caps) ->
  Re.findall pattern (c :: a ++ s) = caps :: Re.findall pattern s.
Proof.
  intros H. unfold Re.findall, Re.finditer.
  rewrite (@scan_hit pattern c a s caps 0 H). simpl. f_equal. apply scan_groups_shift.
Qed.

Lemma findall_miss (c : codepoint) (s : str) :
  Re.re_match pattern (c :: s) = None ->
  Re.findall pattern (c :: s) = Re.findall pattern s.
Proof.
  intros H. unfold Re.findall, Re.finditer.
  rewrite (@scan_miss pattern c s 0 H). apply scan_groups_shift.
Qed.

(** Text without an opening brace holds no match. *)
Lemma findall_gap (g s : str) :
  brace_free g = true ->
  Re.findall pattern (g ++ s) = Re.findall pattern s.
Proof.
  induction g as [|c g IH]; simpl; [reflexivity|]. intros H.
  apply andb_prop in H as [Hc Hg].
  rewrite findall_miss; [auto|].
  apply match_needs_brace. destruct (N.eqb c Re.brace); [discriminate|reflexivity].
Qed.

Lemma findall_record (r : record_text) (s : str) :
  well_formed r = true ->
  Re.findall pattern (text r ++ s) = fields r :: Re.findall pattern s.
Proof.
  intros H. pose proof (match_well_formed r s H) as Hm.
  assert (E : exists a, text r = Re.brace :: a).
  { unfold text, text_unclosed. simpl. eexists. reflexivity. }
  destruct E as [a E]. rewrite E in *. simpl in *.
  apply findall_hit, Hm.
Qed.

(** A file of well-formed records separated by brace-free text gives the
    fields of its records, in order, then whatever the rest holds. *)
Lemma findall_file (lead : str) (items : list (record_text * str)) (rest : str) :
  well_formed_file lead items = true ->
  Re.findall pattern (file_text lead items ++ rest) =
  List.map (fun it => fields (fst it)) items ++ Re.findall pattern rest.
Proof.
  unfold well_formed_file, file_text. intros H.
  apply andb_prop in H as [Hl Hi]. rewrite <- app_assoc.
  rewrite (findall_gap _ _ Hl). clear Hl lead.
  induction items as [|[r g] items IH]; [reflexivity|].
  cbn [flat_map List.map fst snd app].
  cbn [forallb fst snd] in Hi. apply andb_prop in Hi as [Hrg Hi].
  apply andb_prop in Hrg as [Hr Hg].
  repeat rewrite <- app_assoc.
  rewrite (findall_record _ _ Hr), (findall_gap _ _ Hg). f_equal. auto.
Qed.

(** ** Keys and the dict *)

Lemma str_eqb_eq (a b : str) : Py.str_eqb a b = true <-> a = b.
Proof.
  revert b. induction a as [|x a IH]; intros [|y b]; simpl;
    try (split; [discriminate|discriminate]); [tauto|].
  rewrite andb_true_iff, N.eqb_eq, IH. split.
  - intros [-> ->]. reflexivity.
  - intros E. inversion E. tauto.
Qed.

Lemma str_eqb_neq (a b : str) : Py.str_eqb a b = false <-> a <> b.
Proof.
  rewrite <- str_eqb_eq. destruct (Py.str_eqb a b); split; congruence.
Qed.

Lemma str_eqb_refl (a : str) : Py.str_eqb a a = true.
Proof. apply str_eqb_eq. reflexivity. Qed.

Lemma name_key_inj (a b : str) : name_key a = name_key b -> a = b.
Proof.
  unfold name_key. intros H. apply app_inv_head in H.
  apply app_inv_tail in H. exact H.
Qed.

Lemma description_key_inj (a b : str) :
  description_key a = description_key b -> a = b.
Proof.
  unfold description_key. intros H. apply app_inv_head in H.
  apply app_inv_tail in H. exact H.
Qed.

(** A name key ends in [e], a description key in [n]. *)
Lemma name_key_not_description_key (a b : str) :
  name_key a <> description_key b.
Proof.
  unfold name_key, description_key. intros H. apply app_inv_head in H.
  change (Py.lit ".name") with (Py.lit ".nam" ++ [101%N]) in H.
  change (Py.lit ".description") with (Py.lit ".descriptio" ++ [110%N]) in H.
  rewrite !app_assoc in H. apply app_inj_tail in H as [_ H]. discriminate.
Qed.

Lemma existsb_str (k : str) (l : list str) :
  existsb (Py.str_eqb k) l = true <-> In k l.
Proof.
  rewrite existsb_exists. split.
  - intros [x [Hx E]]. apply str_eqb_eq in E. subst. exact Hx.
  - intros H. exists k. split; [exact H|apply str_eqb_refl].
Qed.

Lemma setitem_absent (d : Dict.t) (k : str) (v : Json.value) :
  ~ In k (Dict.keys d) -> Dict.setitem d k v = d ++ [(k, v)].
Proof.
  induction d as [|[k' v'] d IH]; simpl; intros H; [reflexivity|].
  destruct (Py.str_eqb k' k) eqn:E.
  - apply str_eqb_eq in E. tauto.
  - rewrite IH; tauto.
Qed.

Lemma setitem_same (d : Dict.t) (k : str) (v : Json.value) :
  In k (Dict.keys d) -> Forall (fun kv => snd kv = v) d ->
  Dict.setitem d k v = d.
Proof.
  induction d as [|[k' v'] d IH]; simpl; intros H F; [contradiction|].
  apply Forall_cons_iff in F as [Hv F']. simpl in Hv. subst v'.
  destruct (Py.str_eqb k' k) eqn:E; [reflexivity|].
  apply str_eqb_neq in E. f_equal. apply IH; tauto.
Qed.

(** Two assignments to one key: the key is held once, with the later
    value. *)
Lemma setitem_twice (d : Dict.t) (k : str) (v1 v2 : Json.value) :
  Dict.setitem (Dict.setitem d k v1) k v2 = Dict.setitem d k v2.
Proof.
  induction d as [|[k' v'] d IH]; simpl.
  - rewrite str_eqb_refl. reflexivity.
  - destruct (Py.str_eqb k' k) eqn:E; simpl; rewrite E; [reflexivity|].
    f_equal. exact IH.
Qed.

Lemma get_setitem (d : Dict.t) (k : str) (v : Json.value) :
  Dict.get (Dict.setitem d k v) k = Some v.
Proof.
  induction d as [|[k' v'] d IH]; simpl.
  - rewrite str_eqb_refl. reflexivity.
  - destruct (Py.str_eqb k' k) eqn:E; simpl; rewrite E; [reflexivity|exact IH].
Qed.

Lemma keys_setitem_nodup (d : Dict.t) (k : str) (v : Json.value) :
  NoDup (Dict.keys d) -> NoDup (Dict.keys (Dict.setitem d k v)).
Proof.
  intros H. destruct (in_dec (list_eq_dec N.eq_dec) k (Dict.keys d)) as [Hin|Hout].
  - assert (E : Dict.keys (Dict.setitem d k v) = Dict.keys d).
    { clear H. induction d as [|[k' v'] d IH]; simpl in *; [contradiction|].
      destruct (Py.str_eqb k' k) eqn:E; [reflexivity|].
      apply str_eqb_neq in E. simpl. f_equal. apply IH.
      destruct Hin; [contradiction|assumption]. }
    rewrite E. exact H.
  - rewrite setitem_absent by exact Hout. unfold Dict.keys.
    rewrite map_app. simpl. apply NoDup_app.
    + exact H.
    + constructor; [intros []|constructor].
    + intros x Hx [Hk|[]]. subst. exact (Hout Hx).
Qed.

Lemma keys_slots_of (ks : list str) (k : str) :
  (In (name_key k) (Dict.keys (slots_of ks)) <-> In k ks)
  /\ (In (description_key k) (Dict.keys (slots_of ks)) <-> In k ks).
Proof.
  induction ks as [|k' ks [IHn IHd]]; simpl; [tauto|]. split; split.
  - intros [H|[H|H]].
    + left. apply name_key_inj, H.
    + symmetry in H. destruct (name_key_not_description_key _ _ H).
    + right. apply IHn, H.
  - intros [->|H]; [left; reflexivity|right; right; apply IHn, H].
  - intros [H|[H|H]].
    + destruct (name_key_not_description_key _ _ H).
    + left. apply description_key_inj, H.
    + right. apply IHd, H.
  - intros [->|H]; [right; left; reflexivity|right; right; apply IHd, H].
Qed.

Lemma slots_of_values (ks : list str) :
  Forall (fun kv => snd kv = Json.Str []) (slots_of ks).
Proof.
  induction ks as [|k ks IH]; simpl; repeat constructor. exact IH.
Qed.

Lemma slots_of_app (a b : list str) :
  slots_of (a ++ b) = slots_of a ++ slots_of b.
Proof. unfold slots_of. apply flat_map_app. Qed.

Lemma in_name_key (ks : list str) (k : str) :
  In (name_key k) (Dict.keys (slots_of ks)) <-> In k ks.
Proof. apply keys_slots_of. Qed.

Lemma in_description_key (ks : list str) (k : str) :
  In (description_key k) (Dict.keys (slots_of ks)) <-> In k ks.
Proof. apply keys_slots_of. Qed.

(** One turn of the loop on a template of slots. *)
Lemma add_slots_see (acc : list str) (k : str) :
  add_slots (slots_of acc) k = slots_of (see acc k).
Proof.
  unfold add_slots, see. destruct (existsb (Py.str_eqb k) acc) eqn:E.
  - apply existsb_str in E.
    rewrite (setitem_same (slots_of acc) (name_key k));
      [|apply in_name_key, E|apply slots_of_values].
    apply setitem_same; [apply in_description_key, E|apply slots_of_values].
  - assert (Hk : ~ In k acc).
    { intros H. apply existsb_str in H. congruence. }
    rewrite (setitem_absent (slots_of acc) (name_key k)).
    + rewrite setitem_absent.
      * rewrite slots_of_app, <- app_assoc. reflexivity.
      * unfold Dict.keys. rewrite map_app, in_app_iff. simpl.
        intros [H|[H|[]]].
        -- apply Hk. apply (in_description_key acc k), H.
        -- exact (name_key_not_description_key _ _ H).
    + intros H. apply Hk. apply (in_name_key acc k), H.
Qed.

Lemma fold_add_slots (ids acc : list str) :
  List.fold_left add_slots ids (slots_of acc) =
  slots_of (List.fold_left see ids acc).
Proof.
  revert acc. induction ids as [|k ids IH]; intros acc; simpl; [reflexivity|].
  rewrite add_slots_see. apply IH.
Qed.

(** ** Identifiers in first-seen order *)

Lemma fold_see_extends (ids acc : list str) :
  exists extra, List.fold_left see ids acc = acc ++ extra.
Proof.
  revert acc. induction ids as [|k ids IH]; intros acc; simpl.
  - exists []. symmetry. apply app_nil_r.
  - unfold see at 2. destruct (existsb (Py.str_eqb k) acc).
    + apply IH.
    + destruct (IH (acc ++ [k])) as [extra E]. exists (k :: extra).
      rewrite E, <- app_assoc. reflexivity.
Qed.

Lemma in_fold_see (ids acc : list str) (k : str) :
  In k (List.fold_left see ids acc) <-> In k acc \/ In k ids.
Proof.
  revert acc. induction ids as [|k' ids IH]; intros acc; simpl; [tauto|].
  rewrite IH. unfold see. destruct (existsb (Py.str_eqb k') acc) eqn:E.
  - apply existsb_str in E. split; [tauto|].
    intros [H|[H|H]]; subst; tauto.
  - rewrite in_app_iff. simpl. tauto.
Qed.

Lemma nodup_fold_see (ids acc : list str) :
  NoDup acc -> NoDup (List.fold_left see ids acc).
Proof.
  revert acc. induction ids as [|k ids IH]; intros acc H; simpl; [exact H|].
  apply IH. unfold see. destruct (existsb (Py.str_eqb k) acc) eqn:E; [exact H|].
  apply NoDup_app; [exact H|constructor; [intros []|constructor]|].
  intros x Hx [Hk|[]]. subst.
  apply existsb_str in Hx. congruence.
Qed.


Lemma first_seen_nodup (ids : list str) : NoDup (first_seen ids).
Proof. apply nodup_fold_see. constructor. Qed.

Lemma in_first_seen (ids : list str) (k : str) :
  In k (first_seen ids) <-> In k ids.
Proof. unfold first_seen. rewrite in_fold_see. simpl. tauto. Qed.


Lemma first_seen_length (ids : list str) :
  length (first_seen ids) <= length ids.
Proof.
  apply NoDup_incl_length; [apply first_seen_nodup|].
  intros k. apply in_first_seen.
Qed.

(** A repeated identifier makes the first-seen list strictly shorter. *)
Lemma first_seen_shorter (ids : list str) :
  ~ NoDup ids -> length (first_seen ids) < length ids.
Proof.
  intros H. destruct (Nat.lt_ge_cases (length (first_seen ids)) (length ids))
    as [Hlt|Hge]; [exact Hlt|].
  exfalso. apply H.
  apply (@NoDup_incl_NoDup _ (first_seen ids) ids);
    [apply first_seen_nodup|exact Hge|].
  intros k. apply in_first_seen.
Qed.

(** ** The stream and the loop *)

Section Stream.

Variable cod : Os.codec.

Lemma encode_app (a b : str) :
  Os.encode cod (a ++ b) =
  match Os.encode cod a with
  | Some x =>
      match Os.encode cod b with
      | Some y => Some (x ++ y)
      | None => None
      end
  | None => None
  end.
Proof.
  induction a as [|c a IH]; simpl.
  - destruct (Os.encode cod b); reflexivity.
  - destruct (cod c) as [x|]; [|reflexivity]. rewrite IH.
    destruct (Os.encode cod a) as [xs|]; [|reflexivity].
    destruct (Os.encode cod b) as [ys|]; [|reflexivity].
    rewrite app_assoc. reflexivity.
Qed.

(** Printing lines writes the encoding of their text, or stops at the
    first write that cannot be encoded. *)
Lemma print_lines_spec (ls : list str) :
  forall out,
    print_lines cod ls out =
    match Os.encode cod (lines ls) with
    | Some bytes => inr (tt, out ++ bytes)
    | None => inl (Py.UnicodeEncodeError, out ++ written cod ls)
    end.
Proof.
  induction ls as [|l ls IH]; intros out.
  - simpl. rewrite app_nil_r. reflexivity.
  - cbn [print_lines lines flat_map written]. fold (lines ls).
    unfold bind at 1. unfold print, bind, write.
    rewrite <- app_assoc, !encode_app.
    destruct (Os.encode cod l) as [b|]; [|rewrite app_nil_r; reflexivity].
    destruct (Os.encode cod [10%N]) as [nl|]; [|reflexivity].
    rewrite IH.
    destruct (Os.encode cod (lines ls)) as [bs|];
      repeat rewrite <- app_assoc; reflexivity.
Qed.

Lemma print_lines_app (a b : list str) :
  forall out,
    print_lines cod (a ++ b) out =
    match print_lines cod a out with
    | inl e => inl e
    | inr (_, out') => print_lines cod b out'
    end.
Proof.
  induction a as [|l a IH]; intros out; [reflexivity|].
  cbn [app print_lines]. unfold bind.
  destruct (print cod l out) as [e|[[] o]]; [reflexivity|]. apply IH.
Qed.

Ltac writes :=
  repeat match goal with
         | |- context [Os.encode cod ?x] =>
             destruct (Os.encode cod x); try reflexivity
         end.



Lemma loop_body_lines (k n d : str) (td : Dict.t) (out : list Byte.byte) :
  loop_body cod [k; n; d] td out =
  match print_lines cod (block_lines [k; n; d]) out with
  | inl e => inl e
  | inr (_, out') => inr (add_slots td k, out')
  end.
Proof.
  cbv [loop_body block_lines print_lines print bind write ret add_slots].
  writes.
Qed.

Lemma for_loop_lines (matches : list (list str)) :
  Forall (fun m => length m = 3) matches ->
  forall td out,
    for_loop cod matches td out =
    match print_lines cod (List.flat_map block_lines matches) out with
    | inl e => inl e
    | inr (_, out') =>
        inr (List.fold_left add_slots (List.map key_of matches) td, out')
    end.
Proof.
  induction 1 as [|m ms Hm _ IH]; intros td out; [reflexivity|].
  destruct m as [|k [|n [|d [|x m]]]]; try discriminate.
  cbn [for_loop flat_map List.map List.fold_left]. unfold bind at 1.
  rewrite loop_body_lines, print_lines_app.
  destruct (print_lines cod (block_lines [k; n; d]) out) as [e|[[] o]];
    [reflexivity|].
  apply IH.
Qed.

End Stream.

Lemma encode_silent (s : str) : Os.encode Os.silent s = Some [].
Proof. induction s as [|c s IH]; simpl; [|rewrite IH]; reflexivity. Qed.

(** Every match carries the three groups, so the unpacking never fails. *)
Lemma findall_arity (content : str) :
  Forall (fun m => length m = 3) (Re.findall pattern content).
Proof.
  apply Forall_forall. intros m Hm. unfold Re.findall in Hm.
  apply in_map_iff in Hm as [[p caps] [E Hin]]. simpl in E. subst caps.
  apply scan_sound in Hin as [_ [rest Hr]].
  rewrite re_match_pattern in Hr. apply run_groups in Hr. exact Hr.
Qed.

Lemma template_of_slots (matches : list (list str)) :
  Forall (fun m => length m = 3) matches ->
  template_of matches = slots_of (first_seen (List.map key_of matches)).
Proof.
  intros H. unfold template_of.
  rewrite (for_loop_lines Os.silent matches H), print_lines_spec, encode_silent.
  apply (fold_add_slots _ []).
Qed.

(** ** The template of a file *)

Lemma keys_slots_flat (ks : list str) :
  Dict.keys (slots_of ks) = List.flat_map record_keys ks.
Proof.
  induction ks as [|k ks IH]; simpl; [reflexivity|].
  f_equal. f_equal. exact IH.
Qed.

Lemma length_slots_of (ks : list str) : length (slots_of ks) = 2 * length ks.
Proof. induction ks as [|k ks IH]; simpl in *; lia. Qed.

Lemma template_slots (content : str) :
  template content =
  slots_of (first_seen (List.map key_of (Re.findall pattern content))).
Proof. apply template_of_slots, findall_arity. Qed.

Lemma template_keys (content : str) (k : str) :
  In k (Dict.keys (template content)) <->
  exists id,
    In id (List.map key_of (Re.findall pattern content))
    /\ In k (record_keys id).
Proof.
  rewrite template_slots, keys_slots_flat, in_flat_map.
  split; intros [id [Hid Hk]]; exists id; split; try exact Hk;
    apply in_first_seen, Hid.
Qed.

Lemma file_matches (lead : str) (items : list (record_text * str)) :
  well_formed_file lead items = true ->
  Re.findall pattern (file_text lead items) =
  List.map (fun it => fields (fst it)) items.
Proof.
  intros H. pose proof (findall_file lead items [] H) as E.
  rewrite findall_nil, !app_nil_r in E. exact E.
Qed.

Lemma file_identifiers (lead : str) (items : list (record_text * str)) :
  well_formed_file lead items = true ->
  List.map key_of (Re.findall pattern (file_text lead items)) =
  identifiers items.
Proof.
  intros H. rewrite (file_matches lead items H), map_map. reflexivity.
Qed.

(** ** The run in closed form *)








(** ** Files that hold exactly some records *)











(** ** Places in the iteration order *)

Lemma index_lt (ks : list str) (k : str) (p : nat) :
  Dict.index ks k = Some p -> p < length ks.
Proof.
  revert p. induction ks as [|k' ks IH]; simpl; intros p H; [discriminate|].
  destruct (Py.str_eqb k' k).
  - inversion H. lia.
  - destruct (Dict.index ks k) as [q|]; [|discriminate].
    inversion H. specialize (IH q eq_refl). lia.
Qed.

Lemma index_in (ks : list str) (k : str) :
  In k ks -> exists p, Dict.index ks k = Some p.
Proof.
  induction ks as [|k' ks IH]; simpl; intros H; [contradiction|].
  destruct (Py.str_eqb k' k) eqn:E; [exists 0; reflexivity|].
  apply str_eqb_neq in E. destruct H as [H|H]; [contradiction|].
  destruct (IH H) as [p Hp]. exists (S p). rewrite Hp. reflexivity.
Qed.

Lemma index_app_l (a b : list str) (k : str) (p : nat) :
  Dict.index a k = Some p -> Dict.index (a ++ b) k = Some p.
Proof.
  revert p. induction a as [|k' a IH]; simpl; intros p H; [discriminate|].
  destruct (Py.str_eqb k' k); [exact H|].
  destruct (Dict.index a k) as [q|]; [|discriminate].
  rewrite (IH q eq_refl). exact H.
Qed.

Lemma index_app_r (a b : list str) (k : str) (p : nat) :
  ~ In k a -> Dict.index (a ++ b) k = Some p -> length a <= p.
Proof.
  revert p. induction a as [|k' a IH]; simpl; intros p Hn H; [lia|].
  destruct (Py.str_eqb k' k) eqn:E.
  - apply str_eqb_eq in E. tauto.
  - destruct (Dict.index (a ++ b) k) as [q|] eqn:Eq; [|discriminate].
    inversion H. assert (length a <= q) by (apply IH; tauto). lia.
Qed.

(** In a template of slots the keys of the [p]-th identifier stand at
    places [2p] and [2p+1]. *)
Lemma index_slots (ks : list str) (k : str) (p : nat) :
  Dict.index ks k = Some p ->
  Dict.index (Dict.keys (slots_of ks)) (name_key k) = Some (2 * p)
  /\ Dict.index (Dict.keys (slots_of ks)) (description_key k)
     = Some (2 * p + 1).
Proof.
  revert p. induction ks as [|k' ks IH]; intros p H; [discriminate|].
  cbn [Dict.index] in H. cbn [slots_of flat_map slots Dict.keys List.map app fst].
  cbn [Dict.index].
  destruct (Py.str_eqb k' k) eqn:E.
  - apply str_eqb_eq in E. subst k'. inversion H. subst p.
    rewrite !str_eqb_refl.
    assert (N : Py.str_eqb (name_key k) (description_key k) = false)
      by (apply str_eqb_neq, name_key_not_description_key).
    rewrite N. split; reflexivity.
  - apply str_eqb_neq in E.
    assert (N1 : Py.str_eqb (name_key k') (name_key k) = false)
      by (apply str_eqb_neq; intros X; apply E, name_key_inj, X).
    assert (N2 : Py.str_eqb (description_key k') (name_key k) = false)
      by (apply str_eqb_neq; intros X;
          apply (name_key_not_description_key k k'); symmetry; exact X).
    assert (N3 : Py.str_eqb (name_key k') (description_key k) = false)
      by (apply str_eqb_neq, name_key_not_description_key).
    assert (N4 : Py.str_eqb (description_key k') (description_key k) = false)
      by (apply str_eqb_neq; intros X; apply E, description_key_inj, X).
    rewrite N1, N2, N3, N4.
    destruct (Dict.index ks k) as [q|]; [|discriminate].
    inversion H. subst p. destruct (IH q eq_refl) as [I1 I2].
    fold (slots_of ks). change (List.map fst (slots_of ks))
      with (Dict.keys (slots_of ks)).
    rewrite I1, I2. simpl. split; f_equal; lia.
Qed.

(** An identifier met by position [i] comes, in first-seen order, before
    one not met by then. *)
Lemma first_seen_order (ids : list str) (i : nat) (ki kj : str) :
  nth_error ids i = Some ki ->
  ~ In kj (firstn (S i) ids) -> In kj ids ->
  exists p q,
    Dict.index (first_seen ids) ki = Some p
    /\ Dict.index (first_seen ids) kj = Some q
    /\ p < q.
Proof.
  intros Hi Hnot Hin.
  assert (Hki : In ki (firstn (S i) ids)).
  { clear Hnot Hin. revert ids Hi.
    induction i as [|i IH]; intros [|x ids] Hi; try discriminate.
    - inversion Hi. left. reflexivity.
    - right. apply IH, Hi. }
  assert (E : exists extra,
             first_seen ids = first_seen (firstn (S i) ids) ++ extra).
  { destruct (fold_see_extends (skipn (S i) ids)
                (first_seen (firstn (S i) ids))) as [extra E].
    exists extra. rewrite <- E. unfold first_seen.
    rewrite <- fold_left_app, firstn_skipn. reflexivity. }
  destruct E as [extra E]. rewrite E.
  destruct (index_in (first_seen (firstn (S i) ids)) ki) as [p Hp];
    [apply in_first_seen, Hki|].
  assert (Hj : In kj (first_seen (firstn (S i) ids) ++ extra)).
  { rewrite <- E. apply in_first_seen, Hin. }
  destruct (index_in _ kj Hj) as [q Hq].
  exists p, q. split; [apply index_app_l, Hp|]. split; [exact Hq|].
  apply index_lt in Hp.
  apply index_app_r in Hq; [lia|].
  intros H. apply Hnot, in_first_seen, H.
Qed.

Lemma before_slots (ks : list str) (ka kb a b : str) (p q : nat) :
  Dict.index ks ka = Some p -> Dict.index ks kb = Some q -> p < q ->
  In a (record_keys ka) -> In b (record_keys kb) ->
  before (slots_of ks) a b.
Proof.
  intros Hp Hq Hlt Ha Hb.
  destruct (index_slots ks ka p Hp) as [A1 A2].
  destruct (index_slots ks kb q Hq) as [B1 B2].
  unfold before. simpl in Ha, Hb.
  destruct Ha as [<-|[<-|[]]]; destruct Hb as [<-|[<-|[]]];
    eexists; eexists; (split; [eassumption|split; [eassumption|lia]]).
Qed.

(** C2, as amended.  In every template the name key of a record stands
    before its description key; and for records at positions [i < j],
    both keys of record [i] stand before both keys of record [j] whenever
    the identifier of record [j] is not met among records [0..i]. *)
Theorem template_follows_first_occurrence (content : str) :
  let ids := List.map key_of (Re.findall pattern content) in
  (forall k,
     In k ids ->
     before (template content) (name_key k) (description_key k))
  /\ (forall i j ki kj,
        i < j -> nth_error ids i = Some ki -> nth_error ids j = Some kj ->
        ~ In kj (firstn (S i) ids) ->
        forall a b,
          In a (record_keys ki) -> In b (record_keys kj) ->
          before (template content) a b).
Proof.
  intros ids. rewrite template_slots. fold ids. split.
  - intros k Hk.
    destruct (index_in (first_seen ids) k) as [p Hp];
      [apply in_first_seen, Hk|].
    destruct (index_slots _ k p Hp) as [A1 A2].
    exists (2 * p), (2 * p + 1). repeat split; try assumption. lia.
  - intros i j ki kj _ Hi Hj Hnot a b Ha Hb.
    destruct (first_seen_order ids i ki kj Hi Hnot (nth_error_In _ _ Hj))
      as (p & q & Hp & Hq & Hlt).
    exact (before_slots _ ki kj a b p q Hp Hq Hlt Ha Hb).
Qed.

Lemma template_follows_first_occurrence_witness :
  let content := file_text [] a_b_a in
  let ids := List.map key_of (Re.findall pattern content) in
  (0 < 1 /\ nth_error ids 0 = Some (Py.lit "A")
   /\ nth_error ids 1 = Some (Py.lit "B")
   /\ ~ In (Py.lit "B") (firstn 1 ids))
  /\ before (template content) (description_key (Py.lit "A"))
       (name_key (Py.lit "B"))
  /\ before (template content) (name_key (Py.lit "A"))
       (description_key (Py.lit "A")).
Proof.
  intros content ids.
  assert (H0 : nth_error ids 0 = Some (Py.lit "A")) by reflexivity.
  assert (H1 : nth_error ids 1 = Some (Py.lit "B")) by reflexivity.
  assert (Hn : ~ In (Py.lit "B") (firstn 1 ids)).
  { vm_compute. intros [H|[]]. discriminate. }
  destruct (template_follows_first_occurrence content) as [Hin Hord].
  split; [split; [lia|split; [exact H0|split; [exact H1|exact Hn]]]|]. split.
  - apply (Hord 0 1 (Py.lit "A") (Py.lit "B") Nat.lt_0_1 H0 H1 Hn);
      simpl; tauto.
  - apply Hin. apply (nth_error_In ids 0 H0).
Defined.

(** C2, as stated, fails on three records with identifiers A, B, A: the
    keys of the third record are those of the first and stand before the
    keys of the second. *)
Lemma keys_in_file_order_fails :
  well_formed_file [] a_b_a = true
  /\ ~ keys_in_file_order (file_text [] a_b_a).
Proof.
  split; [reflexivity|]. intros H.
  assert (H1 : nth_error
                 (List.map key_of (Re.findall pattern (file_text [] a_b_a))) 1
               = Some (Py.lit "B")) by reflexivity.
  assert (H2 : nth_error
                 (List.map key_of (Re.findall pattern (file_text [] a_b_a))) 2
               = Some (Py.lit "A")) by reflexivity.
  destruct (H 1 2 (Py.lit "B") (Py.lit "A") (Nat.lt_succ_diag_r 1) H1 H2
              (name_key (Py.lit "B")) (name_key (Py.lit "A"))
              (or_introl eq_refl) (or_introl eq_refl))
    as (p & q & Hp & Hq & Hlt).
  vm_compute in Hp. vm_compute in Hq.
  inversion Hp; subst p. inversion Hq; subst q. lia.
Qed.

(** ** The printed template *)

Lemma template_values (content : str) :
  Forall (fun kv => snd kv = Json.Str []) (template content).
Proof. rewrite template_slots. apply slots_of_values. Qed.

Lemma flat_items (d : Dict.t) (level : nat) :
  Forall (fun kv => snd kv = Json.Str []) d ->
  List.map
    (fun kv : str * Json.value =>
       let (k, x) := kv in
       Json.encode_basestring k ++ Py.lit ": " ++ Json.encode level x) d
  = List.map flat_line (Dict.keys d).
Proof.
  induction 1 as [|[k v] d Hv _ IH]; simpl; [reflexivity|].
  simpl in Hv. subst v. f_equal. exact IH.
Qed.

Lemma dumps_flat (d : Dict.t) :
  Forall (fun kv => snd kv = Json.Str []) d ->
  Json.dumps (Json.Obj d) = flat_object_text (Dict.keys d).
Proof.
  intros H. unfold Json.dumps, flat_object_text.
  destruct d as [|kv d]; [reflexivity|].
  cbn [Json.encode]. rewrite (flat_items (kv :: d) 1 H). reflexivity.
Qed.

(** ** The printed template, read back *)

Lemma below_32 (c : codepoint) :
  (c <? 32)%N = true -> In c (List.map N.of_nat (List.seq 0 32)).
Proof.
  intros H. apply N.ltb_lt in H. rewrite <- (N2Nat.id c).
  apply in_map, in_seq. lia.
Qed.

Lemma slots_keys_nodup (ks : list str) :
  NoDup ks -> NoDup (Dict.keys (slots_of ks)).
Proof.
  induction 1 as [|k ks Hk _ IH]; [constructor|].
  cbn [slots_of flat_map slots Dict.keys List.map app fst].
  fold (slots_of ks). change (List.map fst (slots_of ks))
    with (Dict.keys (slots_of ks)).
  constructor; [|constructor; [|exact IH]].
  - intros [H|H].
    + symmetry in H. exact (name_key_not_description_key _ _ H).
    + apply Hk, (in_name_key ks k), H.
  - intros H. apply Hk, (in_description_key ks k), H.
Qed.
















(** ** Inputs of the script *)







(** C8.  When the fixed file is missing, cannot be read, or is not valid
    UTF-8, the run ends with the exception of [open] or of the decoder,
    and nothing has been printed. *)
Theorem load_failure_is_fatal (w : Os.world) :
  (Os.fs w source_path = Os.Absent ->
   main w = Raised Py.FileNotFoundError [])
  /\ (Os.fs w source_path = Os.Unreadable ->
      main w = Raised Py.PermissionError [])
  /\ (forall bytes,
        Os.fs w source_path = Os.Regular bytes ->
        Os.utf8_decode bytes = None ->
        main w = Raised Py.UnicodeDecodeError []).
Proof.
  unfold main, Os.read_text. repeat split.
  - intros H. rewrite H. reflexivity.
  - intros H. rewrite H. reflexivity.
  - intros bytes H D. rewrite H, D. reflexivity.
Qed.

Lemma load_failure_is_fatal_witness :
  (Os.fs world_absent source_path = Os.Absent
   /\ main world_absent = Raised Py.FileNotFoundError [])
  /\ (Os.fs world_unreadable source_path = Os.Unreadable
      /\ main world_unreadable = Raised Py.PermissionError [])
  /\ (Os.fs world_undecodable source_path
      = Os.Regular [Byte.x7b; Byte.xe5; Byte.x90]
      /\ Os.utf8_decode [Byte.x7b; Byte.xe5; Byte.x90] = None
      /\ main world_undecodable = Raised Py.UnicodeDecodeError []).
Proof.
  split; [|split].
  - split; [reflexivity|].
    exact (proj1 (load_failure_is_fatal world_absent) eq_refl).
  - split; [reflexivity|].
    exact (proj1 (proj2 (load_failure_is_fatal world_unreadable)) eq_refl).
  - split; [reflexivity|]. split; [reflexivity|].
    exact (proj2 (proj2 (load_failure_is_fatal world_undecodable))
             [Byte.x7b; Byte.xe5; Byte.x90] eq_refl eq_refl).
Defined.

(** ** No match at all *)





(** ** A repeated identifier *)

Lemma get_of_key (d : Dict.t) (k : str) (v : Json.value) :
  In k (Dict.keys d) -> Forall (fun kv => snd kv = v) d ->
  Dict.get d k = Some v.
Proof.
  induction d as [|[k' v'] d IH]; simpl; intros H F; [contradiction|].
  apply Forall_cons_iff in F as [Hv F]. simpl in Hv. subst v'.
  destruct (Py.str_eqb k' k) eqn:E; [reflexivity|].
  apply str_eqb_neq in E. apply IH; tauto.
Qed.

Lemma repeated_not_nodup (ids : list str) (i j : nat) (k : str) :
  i < j -> nth_error ids i = Some k -> nth_error ids j = Some k ->
  ~ NoDup ids.
Proof.
  intros Hlt Hi Hj Hnd.
  assert (Hlen : i < length ids)
    by (apply nth_error_Some; rewrite Hi; discriminate).
  pose proof (proj1 (NoDup_nth_error ids) Hnd i j Hlen) as E.
  rewrite Hi, Hj in E. specialize (E eq_refl). lia.
Qed.

(** C7.  When two records at positions [i < j] share the identifier [k],
    the template still holds every key once: one name key and one
    description key for [k], with the value of the latest assignment; it
    has twice as many keys as there are distinct identifiers, which is
    fewer than twice the number of matches.  An assignment to a key
    already present replaces its value and adds no key. *)
Theorem repeated_identifier_overwrites
  (content : str) (i j : nat) (k : str) :
  let matches := Re.findall pattern content in
  let ids := List.map key_of matches in
  i < j -> nth_error ids i = Some k -> nth_error ids j = Some k ->
  NoDup (Dict.keys (template content))
  /\ (In (name_key k) (Dict.keys (template content))
      /\ In (description_key k) (Dict.keys (template content)))
  /\ (Dict.get (template content) (name_key k) = Some (Json.Str [])
      /\ Dict.get (template content) (description_key k)
         = Some (Json.Str []))
  /\ (NoDup (first_seen ids) /\ forall x, In x (first_seen ids) <-> In x ids)
  /\ length (template content) = 2 * length (first_seen ids)
  /\ length (template content) < 2 * length matches
  /\ (forall d x v1 v2,
        Dict.setitem (Dict.setitem d x v1) x v2 = Dict.setitem d x v2
        /\ Dict.get (Dict.setitem (Dict.setitem d x v1) x v2) x = Some v2).
Proof.
  intros matches ids Hlt Hi Hj.
  assert (Hk : In k ids) by (apply (nth_error_In ids i), Hi).
  assert (Hn : In (name_key k) (Dict.keys (template content))).
  { apply template_keys. exists k. split; [exact Hk|simpl; tauto]. }
  assert (Hd : In (description_key k) (Dict.keys (template content))).
  { apply template_keys. exists k. split; [exact Hk|simpl; tauto]. }
  split; [rewrite template_slots; apply slots_keys_nodup, first_seen_nodup|].
  split; [split; assumption|].
  split; [split; apply get_of_key; auto using template_values|].
  split; [split; [apply first_seen_nodup|apply in_first_seen]|].
  assert (Hlen : length (template content) = 2 * length (first_seen ids))
    by (rewrite template_slots; apply length_slots_of).
  split; [exact Hlen|]. split.
  - rewrite Hlen.
    pose proof (first_seen_shorter ids (repeated_not_nodup ids i j k Hlt Hi Hj)).
    unfold ids in *. rewrite length_map in *. fold matches in H. lia.
  - intros d x v1 v2. rewrite setitem_twice. split; [reflexivity|].
    apply get_setitem.
Qed.

Lemma repeated_identifier_overwrites_witness :
  let content := file_text [] twins in
  let ids := List.map key_of (Re.findall pattern content) in
  (0 < 1 /\ nth_error ids 0 = Some (Py.lit "A")
   /\ nth_error ids 1 = Some (Py.lit "A"))
  /\ length (Re.findall pattern content) = 2
  /\ NoDup (Dict.keys (template content))
  /\ length (template content) = 2 * length (first_seen ids)
  /\ length (template content) < 2 * length (Re.findall pattern content).
Proof.
  intros content ids.
  assert (H0 : nth_error ids 0 = Some (Py.lit "A")) by reflexivity.
  assert (H1 : nth_error ids 1 = Some (Py.lit "A")) by reflexivity.
  destruct (repeated_identifier_overwrites content 0 1 (Py.lit "A")
              Nat.lt_0_1 H0 H1) as (N & _ & _ & _ & L & S & _).
  split; [split; [exact Nat.lt_0_1|split; assumption]|].
  split; [reflexivity|]. split; [exact N|]. split; [exact L|exact S].
Defined.

(** ** Records the pattern refuses *)

Lemma space_not_brace (c : codepoint) :
  Re.is_space c = true -> negb (N.eqb c Re.brace) = true.
Proof.
  intros H. destruct (N.eqb_spec c Re.brace) as [->|]; [|reflexivity].
  discriminate H.
Qed.

Lemma all_space_brace_free (w : str) :
  all_space w = true -> brace_free w = true.
Proof.
  unfold all_space, brace_free. rewrite !forallb_forall.
  intros H c Hc. apply space_not_brace, H, Hc.
Qed.

Lemma brace_free_app (a b : str) :
  brace_free (a ++ b) = brace_free a && brace_free b.
Proof. apply forallb_app. Qed.

(** After its opening brace a record with whitespace in the gaps and no
    brace in the fields holds no further brace. *)
Lemma brace_free_body (r : record_text) :
  spaced r = true -> brace_free_fields r = true ->
  brace_free (tl (text r)) = true.
Proof.
  intros Hs Hf.
  destruct (spaced_inv r Hs) as (S1 & S2 & S3 & S4 & S5 & S6).
  unfold brace_free_fields in Hf.
  apply andb_prop in Hf as [Hf F3]. apply andb_prop in Hf as [F1 F2].
  unfold text, text_unclosed. repeat rewrite <- app_assoc.
  match goal with
  | |- brace_free (tl ([Re.brace] ++ ?x)) = true => change (brace_free x = true)
  end.
  repeat rewrite brace_free_app.
  rewrite (all_space_brace_free _ S1), (all_space_brace_free _ S2),
    (all_space_brace_free _ S3), (all_space_brace_free _ S4),
    (all_space_brace_free _ S5), (all_space_brace_free _ S6), F1, F2, F3.
  reflexivity.
Qed.

Lemma brace_free_body_unclosed (r : record_text) :
  spaced r = true -> brace_free_fields r = true ->
  brace_free (tl (text_unclosed r)) = true.
Proof.
  intros Hs Hf. pose proof (brace_free_body r Hs Hf) as H.
  unfold text in H.
  assert (E : exists t, text_unclosed r = Re.brace :: t)
    by (unfold text_unclosed; eexists; reflexivity).
  destruct E as [t E]. rewrite E in *. cbn [tl app] in *.
  rewrite brace_free_app in H. apply andb_prop in H as [H _]. exact H.
Qed.

Lemma run_same_matches (cod : Os.codec) (a b : str) :
  Re.findall pattern a = Re.findall pattern b -> run cod a = run cod b.
Proof. intros H. unfold run, script. rewrite H. reflexivity. Qed.

(** A stretch where the pattern fails at the first character and that
    holds no brace after it can be cut out of a file of well-formed
    records without changing the matches. *)
Lemma dead_stretch (lead : str) (items : list (record_text * str))
      (x rest : str) :
  well_formed_file lead items = true ->
  Re.re_match pattern (x ++ rest) = None ->
  brace_free (tl x) = true ->
  Re.findall pattern (file_text lead items ++ x ++ rest)
  = Re.findall pattern (file_text lead items ++ rest).
Proof.
  intros Hwf Hnone Hbf. rewrite !(findall_file lead items _ Hwf). f_equal.
  destruct x as [|c t]; [reflexivity|]. cbn [tl app] in *.
  rewrite (findall_miss c (t ++ rest) Hnone). apply findall_gap, Hbf.
Qed.

Lemma excluded_of_no_match (pre record post : str) :
  Re.re_match pattern (record ++ post) = None -> excluded pre record post.
Proof. intros H caps. apply finditer_not_at, H. Qed.

Lemma segment_split (label : string) (w1 w2 a b tail : str) :
  segment label w1 w2 (a ++ Re.quote :: b) tail
  = segment label w1 w2 a (b ++ Re.quote :: tail).
Proof. unfold segment. rewrite <- app_assoc. reflexivity. Qed.

(** A match only adds groups. *)
Lemma run_extends (r : Re.regex) :
  forall s caps s' caps',
    Det.run r s caps = Some (s', caps') -> exists new, caps' = caps ++ new.
Proof.
  induction r as [|c|q|q|q|a IHa b IHb|a IHa]; simpl; intros s caps s' caps' H.
  - inversion H; subst. exists []. symmetry. apply app_nil_r.
  - destruct s as [|x s]; [discriminate|].
    destruct (N.eqb x c); inversion H; subst. exists []. symmetry.
    apply app_nil_r.
  - destruct s as [|x s]; [discriminate|].
    destruct (q x); inversion H; subst. exists []. symmetry.
    apply app_nil_r.
  - inversion H; subst. exists []. symmetry. apply app_nil_r.
  - destruct s as [|x s]; [discriminate|].
    destruct (q x); inversion H; subst. exists []. symmetry.
    apply app_nil_r.
  - destruct (Det.run a s caps) as [[s1 caps1]|] eqn:Ha; [|discriminate].
    apply IHa in Ha as [n1 ->]. apply IHb in H as [n2 ->].
    exists (n1 ++ n2). symmetry. apply app_assoc.
  - destruct (Det.run a s caps) as [[s1 caps1]|] eqn:Ha; [|discriminate].
    apply IHa in Ha as [n1 ->]. inversion H; subst.
    eexists. rewrite <- app_assoc. reflexivity.
Qed.

Lemma run_word_fails (cs s : str) (caps : list str) :
  starts_with cs s = false ->
  Det.run (Re.seq (List.map Re.Chr cs)) s caps = None.
Proof.
  revert s. induction cs as [|c cs IH]; intros s H; [discriminate|].
  cbn [List.map Re.seq Det.run]. destruct s as [|x s]; [reflexivity|].
  simpl in H. destruct (N.eqb x c); [apply IH, H|reflexivity].
Qed.

Lemma drop_while_head (p : codepoint -> bool) (s b : str) (q : codepoint) :
  Det.drop_while p s = q :: b -> p q = false.
Proof.
  induction s as [|c s IH]; simpl; [discriminate|].
  destruct (p c) eqn:E; [exact IH|]. intros H. inversion H; subst. exact E.
Qed.

Lemma drop_while_stop (p : codepoint -> bool) (q : codepoint) (b tail : str) :
  p q = false ->
  exists y, Det.drop_while p (b ++ [q]) = y ++ [q]
            /\ Det.drop_while p (b ++ q :: tail) = y ++ q :: tail.
Proof.
  intros H. induction b as [|c b IH]; simpl.
  - rewrite H. exists []. split; reflexivity.
  - destruct (p c); [exact IH|]. exists (c :: b). split; reflexivity.
Qed.

Lemma starts_with_stop (w y tail : str) :
  quote_free w = true ->
  starts_with w (y ++ Re.quote :: tail) = starts_with w (y ++ [Re.quote]).
Proof.
  revert y. induction w as [|c w IH]; intros y H; [reflexivity|].
  simpl in H. apply andb_prop in H as [Hc Hw].
  destruct y as [|x y]; cbn [app starts_with].
  - unfold Re.not_quote in Hc. apply negb_true_iff in Hc.
    rewrite N.eqb_sym, Hc. reflexivity.
  - rewrite (IH y Hw). reflexivity.
Qed.

(** After a quote and a comma inside a field, the match goes on only
    through whitespace and the next label. *)
Lemma run_label_fails (label : string) (rest : list Re.regex) (b tail : str)
      (caps : list str) :
  quote_free (Py.lit label) = true ->
  starts_with (Py.lit label)
    (Det.drop_while Re.is_space (b ++ [Re.quote])) = false ->
  Det.run (Re.seq (labelled label ++ rest)) (b ++ Re.quote :: tail) caps
  = None.
Proof.
  intros Hq H.
  destruct (drop_while_stop Re.is_space Re.quote b tail eq_refl)
    as (y & E1 & E2).
  unfold labelled. cbn [app Re.seq Det.run]. rewrite E2.
  unfold Re.word. rewrite run_word_fails; [reflexivity|].
  rewrite starts_with_stop by exact Hq. rewrite <- E1. exact H.
Qed.

(** A field that breaks: a quote-free start and a quote; and the start is
    empty, or what follows the quote is not a comma once the closing
    quote is in place, or what follows the comma does not reach the next
    label. *)
Lemma breaks_split (next : option string) (f : str) :
  breaks next f = true ->
  exists a b,
    f = a ++ Re.quote :: b /\ quote_free a = true
    /\ (nonempty a = false
        \/ (forall tail caps,
              after_quote (b ++ Re.quote :: tail) caps = None)
        \/ (exists b' label,
              b = Re.comma :: b' /\ next = Some label
              /\ starts_with (Py.lit label)
                   (Det.drop_while Re.is_space (b' ++ [Re.quote])) = false)).
Proof.
  unfold breaks. intros H.
  pose proof (take_drop_while Re.not_quote f) as E.
  pose proof (take_while_all Re.not_quote f) as Q.
  destruct (Det.drop_while Re.not_quote f) as [|q b] eqn:D; [discriminate|].
  assert (Hq : q = Re.quote).
  { apply drop_while_head in D. unfold Re.not_quote in D.
    apply negb_false_iff, N.eqb_eq in D. exact D. }
  subst q. exists (Det.take_while Re.not_quote f), b.
  split; [symmetry; exact E|]. split; [exact Q|].
  apply orb_prop in H as [H|H].
  - left. apply negb_true_iff, H.
  - right. destruct b as [|d b']; [left; reflexivity|].
    destruct (N.eqb d Re.comma) eqn:Hd.
    + cbn [negb orb] in H. destruct next as [label|]; [|discriminate].
      apply N.eqb_eq in Hd. subst d. right. exists b', label.
      split; [reflexivity|]. split; [reflexivity|].
      apply negb_true_iff, H.
    + left. intros tail caps. cbn [app after_quote]. rewrite Hd.
      reflexivity.
Qed.

(** The pattern fails on a record whose first field with a quote breaks. *)
Lemma run_broken (r : record_text) (post : str) :
  spaced r = true -> broken r = true ->
  Det.run pattern (text r ++ post) [] = None.
Proof.
  intros Hs Hb.
  destruct (spaced_inv r Hs) as (S1 & S2 & S3 & S4 & S5 & S6).
  unfold text. rewrite <- app_assoc.
  rewrite pattern_labelled, text_segments, run_brace.
  unfold broken in Hb. apply orb_prop in Hb as [Bk|Hb].
  - destruct (breaks_split _ _ Bk) as (a & b & E & Qa & Hfail).
    rewrite E, segment_split, run_seq_app, run_key_segment by assumption.
    destruct Hfail as [Na|[Hfail|(b' & label & -> & L & Hfail)]].
    + rewrite Na. reflexivity.
    + rewrite Hfail. destruct (nonempty a); reflexivity.
    + destruct (nonempty a); [|reflexivity]. injection L as <-.
      cbn [app after_quote]. rewrite N.eqb_refl.
      apply run_label_fails; [reflexivity|exact Hfail].
  - apply andb_prop in Hb as [Qk Hb].
    rewrite run_seq_app, run_key_segment by assumption.
    destruct (nonempty (key r)); [|reflexivity].
    cbn [after_quote]. rewrite N.eqb_refl.
    apply orb_prop in Hb as [Bn|Hb].
    + destruct (breaks_split _ _ Bn) as (a & b & E & Qa & Hfail).
      rewrite E, segment_split, run_seq_app, run_name_segment by assumption.
      destruct Hfail as [Na|[Hfail|(b' & label & -> & L & Hfail)]].
      * rewrite Na. reflexivity.
      * rewrite Hfail. destruct (nonempty a); reflexivity.
      * destruct (nonempty a); [|reflexivity]. injection L as <-.
        cbn [app after_quote]. rewrite N.eqb_refl.
        rewrite <- (app_nil_r (labelled "description:")).
        apply run_label_fails; [reflexivity|exact Hfail].
    + apply andb_prop in Hb as [Qn Bd].
      rewrite run_seq_app, run_name_segment by assumption.
      destruct (nonempty (name r)); [|reflexivity].
      cbn [after_quote]. rewrite N.eqb_refl.
      destruct (breaks_split _ _ Bd) as (a & b & E & Qa & Hfail).
      rewrite E, segment_split, run_description_segment by assumption.
      destruct Hfail as [Na|[Hfail|(b' & label & _ & L & _)]].
      * rewrite Na. reflexivity.
      * rewrite Hfail. destruct (nonempty a); reflexivity.
      * discriminate L.
Qed.

Lemma quote_free_fields_inv (r : record_text) :
  quote_free_fields r = true ->
  quote_free (key r) = true /\ quote_free (name r) = true
  /\ quote_free (description r) = true.
Proof.
  unfold quote_free_fields. intros H.
  apply andb_prop in H as [H Q3]. apply andb_prop in H as [Q1 Q2]. tauto.
Qed.

Lemma run_empty_field (r : record_text) (post : str) :
  spaced r = true -> quote_free_fields r = true ->
  has_empty_field r = true ->
  Det.run pattern (text r ++ post) [] = None.
Proof.
  intros Hs Hq He. destruct (quote_free_fields_inv r Hq) as (Q1 & Q2 & Q3).
  unfold text. rewrite <- app_assoc, run_record by assumption.
  unfold has_empty_field in He. apply negb_true_iff in He. rewrite He.
  reflexivity.
Qed.

Lemma run_no_comma (r : record_text) (post : str) :
  spaced r = true -> quote_free_fields r = true ->
  starts_with_comma post = false ->
  Det.run pattern (text_unclosed r ++ post) [] = None.
Proof.
  intros Hs Hq Hc. destruct (quote_free_fields_inv r Hq) as (Q1 & Q2 & Q3).
  rewrite run_record by assumption.
  destruct (nonempty (key r) && nonempty (name r) && nonempty (description r));
    [|reflexivity].
  destruct post as [|c post]; [reflexivity|]. simpl in *. rewrite Hc.
  reflexivity.
Qed.

(** A description with [',] inside is not refused: it is extracted cut at
    the quote. *)
Lemma match_truncated (r : record_text) (a b post : str) :
  spaced r = true ->
  quote_free (key r) = true -> nonempty (key r) = true ->
  quote_free (name r) = true -> nonempty (name r) = true ->
  description r = a ++ Re.quote :: Re.comma :: b ->
  quote_free a = true -> nonempty a = true ->
  Re.re_match pattern (text r ++ post)
  = Some (b ++ Re.quote :: Re.comma :: post, [key r; name r; a]).
Proof.
  intros Hs Qk Nk Qn Nn E Qa Na.
  destruct (spaced_inv r Hs) as (S1 & S2 & S3 & S4 & S5 & S6).
  rewrite re_match_pattern. unfold text. rewrite <- app_assoc.
  rewrite pattern_labelled, text_segments, run_brace.
  rewrite run_seq_app, run_key_segment by assumption. rewrite Nk.
  cbn [after_quote]. rewrite N.eqb_refl.
  rewrite run_seq_app, run_name_segment by assumption. rewrite Nn.
  cbn [after_quote]. rewrite N.eqb_refl.
  rewrite E, segment_split, run_description_segment by assumption.
  rewrite Na. reflexivity.
Qed.

(** The description holding the first quote of the record: matched
    exactly when something stands before the quote and a comma follows
    it, and then cut there. *)
Lemma match_description_cut (r : record_text) (a b post : str) :
  spaced r = true ->
  quote_free (key r) = true -> nonempty (key r) = true ->
  quote_free (name r) = true -> nonempty (name r) = true ->
  description r = a ++ Re.quote :: b -> quote_free a = true ->
  Re.re_match pattern (text r ++ post)
  = if nonempty a && starts_with_comma b
    then Some (tl b ++ Re.quote :: Re.comma :: post, [key r; name r; a])
    else None.
Proof.
  intros Hs Qk Nk Qn Nn E Qa.
  destruct (spaced_inv r Hs) as (S1 & S2 & S3 & S4 & S5 & S6).
  rewrite re_match_pattern. unfold text. rewrite <- app_assoc.
  rewrite pattern_labelled, text_segments, run_brace.
  rewrite run_seq_app, run_key_segment by assumption. rewrite Nk.
  cbn [after_quote]. rewrite N.eqb_refl.
  rewrite run_seq_app, run_name_segment by assumption. rewrite Nn.
  cbn [after_quote]. rewrite N.eqb_refl.
  rewrite E, segment_split, run_description_segment by assumption.
  destruct (nonempty a); [|reflexivity].
  destruct b as [|c b]; [reflexivity|]. simpl.
  destruct (N.eqb c Re.comma); reflexivity.
Qed.

(** Whatever a field holds, a match reads it up to its first quote. *)
Lemma segment_cut (label : string) (w1 w2 f tail : str) :
  exists tail',
    segment label w1 w2 f tail = segment label w1 w2 (cut f) tail'.
Proof.
  unfold cut. pose proof (take_drop_while Re.not_quote f) as E.
  destruct (Det.drop_while Re.not_quote f) as [|q b] eqn:D.
  - exists tail. rewrite app_nil_r in E. rewrite E. reflexivity.
  - assert (Hq : q = Re.quote).
    { apply drop_while_head in D. unfold Re.not_quote in D.
      apply negb_false_iff, N.eqb_eq in D. exact D. }
    subst q. exists (b ++ Re.quote :: tail).
    rewrite <- segment_split, E. reflexivity.
Qed.

Lemma run_labelled_cut (label : string) (rest : list Re.regex)
      (w1 w2 f tail : str) (caps : list str) (s' : str) (caps' : list str) :
  Det.starts_outside Re.is_space (Re.word label) ->
  all_space w1 = true -> all_space w2 = true ->
  Det.run (Re.seq (labelled label ++ rest)) (segment label w1 w2 f tail) caps
  = Some (s', caps') ->
  exists new, caps' = caps ++ cut f :: new.
Proof.
  intros Hl H1 H2 H.
  destruct (segment_cut label w1 w2 f tail) as [tail' E]. rewrite E in H.
  rewrite run_seq_app, run_labelled in H;
    [|exact Hl|exact H1|exact H2|apply take_while_all].
  destruct (nonempty (cut f)); [|discriminate].
  unfold after_quote in H. destruct tail' as [|c t]; [discriminate|].
  destruct (N.eqb c Re.comma); [|discriminate].
  apply run_extends in H as [new ->]. exists new.
  rewrite <- app_assoc. reflexivity.
Qed.

Lemma run_cuts (r : record_text) (post rest : str) (caps : list str) :
  spaced r = true ->
  Det.run pattern (text r ++ post) [] = Some (rest, caps) ->
  (exists new, caps = cut (key r) :: new)
  /\ (quote_free (key r) = true ->
      exists new, caps = key r :: cut (name r) :: new)
  /\ (quote_free (key r) = true -> quote_free (name r) = true ->
      exists new, caps = key r :: name r :: cut (description r) :: new).
Proof.
  intros Hs H.
  destruct (spaced_inv r Hs) as (S1 & S2 & S3 & S4 & S5 & S6).
  unfold text in H. rewrite <- app_assoc in H.
  rewrite pattern_labelled, text_segments, run_brace in H.
  split; [|split].
  - apply run_labelled_cut in H; [exact H|reflexivity|exact S1|exact S2].
  - intros Qk. rewrite run_seq_app, run_key_segment in H by assumption.
    destruct (nonempty (key r)); [|discriminate].
    cbn [after_quote] in H. rewrite N.eqb_refl in H.
    apply run_labelled_cut in H; [exact H|reflexivity|exact S3|exact S4].
  - intros Qk Qn. rewrite run_seq_app, run_key_segment in H by assumption.
    destruct (nonempty (key r)); [|discriminate].
    cbn [after_quote] in H. rewrite N.eqb_refl in H.
    rewrite run_seq_app, run_name_segment in H by assumption.
    destruct (nonempty (name r)); [|discriminate].
    cbn [after_quote] in H. rewrite N.eqb_refl in H.
    rewrite <- (app_nil_r (labelled "description:")) in H.
    apply run_labelled_cut in H; [exact H|reflexivity|exact S5|exact S6].
Qed.

Lemma quote_free_no_quote (f : str) :
  quote_free f = true -> has_quote f = false.
Proof.
  induction f as [|c f IH]; [reflexivity|].
  unfold quote_free, has_quote. cbn [forallb existsb].
  fold (quote_free f). fold (has_quote f). intros H.
  apply andb_prop in H as [Hc Hf]. unfold Re.not_quote in Hc.
  apply negb_true_iff in Hc. rewrite N.eqb_sym, Hc. exact (IH Hf).
Qed.

(** What being refused means for the output: no match at the record, and
    in a file of well-formed records the same matches and the same output
    as without it. *)
Lemma refused_record (x pre post : str) :
  Re.re_match pattern (x ++ post) = None ->
  excluded pre x post
  /\ (forall lead items,
        well_formed_file lead items = true ->
        brace_free (tl x) = true ->
        Re.findall pattern (file_text lead items ++ x ++ post)
        = Re.findall pattern (file_text lead items ++ post)
        /\ forall cod,
             run cod (file_text lead items ++ x ++ post)
             = run cod (file_text lead items ++ post)).
Proof.
  intros Hnone. split; [apply excluded_of_no_match, Hnone|].
  intros lead items Hwf Hbf.
  pose proof (dead_stretch lead items x post Hwf Hnone Hbf) as E.
  split; [exact E|intros cod; apply run_same_matches, E].
Qed.

(** C6, as amended.  A record with whitespace in the gaps, one of whose
    fields holds a single quote, is never extracted as it stands.  A
    match that starts at its brace has three non-empty quote-free groups
    that are not the record's fields: the first is the key up to its
    first quote, and when the fields before it hold no quote the second
    is the name, the third the description, up to its first quote.  When
    no match starts at its brace the record is excluded: standing in a
    file of well-formed records, with no brace in its fields, it leaves
    the matches and the whole output as they are without it.  No match
    starts there whenever the first field holding a quote breaks: the
    quote stands first in the field, or is followed by something other
    than a comma, or the comma is not followed by whitespace and the next
    label.  When the description is the first field holding a quote, the
    record is matched exactly when something stands before that quote and
    a comma after it, and then with the description cut at the quote. *)
Theorem quoted_record_excluded_or_cut (r : record_text) (pre post : str) :
  spaced r = true -> quoted r = true ->
  (forall rest caps,
     Re.re_match pattern (text r ++ post) = Some (rest, caps) ->
     caps <> fields r
     /\ exists k n d,
          caps = [k; n; d]
          /\ well_formed (plain k n d) = true
          /\ k = cut (key r)
          /\ (quote_free (key r) = true -> n = cut (name r))
          /\ (quote_free (key r) = true -> quote_free (name r) = true ->
              d = cut (description r)))
  /\ (Re.re_match pattern (text r ++ post) = None ->
      excluded pre (text r) post
      /\ forall lead items,
           well_formed_file lead items = true ->
           brace_free_fields r = true ->
           Re.findall pattern (file_text lead items ++ text r ++ post)
           = Re.findall pattern (file_text lead items ++ post)
           /\ forall cod,
                run cod (file_text lead items ++ text r ++ post)
                = run cod (file_text lead items ++ post))
  /\ (broken r = true -> Re.re_match pattern (text r ++ post) = None)
  /\ (quote_free (key r) = true -> nonempty (key r) = true ->
      quote_free (name r) = true -> nonempty (name r) = true ->
      forall a b,
        description r = a ++ Re.quote :: b -> quote_free a = true ->
        Re.re_match pattern (text r ++ post)
        = if nonempty a && starts_with_comma b
          then Some (tl b ++ Re.quote :: Re.comma :: post,
                     [key r; name r; a])
          else None).
Proof.
  intros Hs Hq. split; [|split; [|split]].
  - intros rest caps H.
    pose proof H as Hrun. rewrite re_match_pattern in Hrun.
    destruct (run_cuts r post rest caps Hs Hrun) as (C1 & C2 & C3).
    apply match_inv in H as (r' & Hwf & _ & Hcaps).
    destruct (well_formed_inv r' Hwf) as (_ & K1 & K2 & N1 & N2 & D1 & D2).
    unfold fields in Hcaps. split.
    + intros Heq. rewrite Hcaps in Heq. unfold fields in Heq.
      injection Heq as Ek En Ed. unfold quoted in Hq.
      rewrite <- Ek, <- En, <- Ed in Hq.
      rewrite !quote_free_no_quote in Hq by assumption. discriminate Hq.
    + exists (key r'), (name r'), (description r').
      split; [exact Hcaps|]. split.
      * unfold well_formed, plain, spaced.
        cbn [key name description ws_open ws_key ws_name_label ws_name
             ws_description_label ws_description].
        rewrite K1, K2, N1, N2, D1, D2. reflexivity.
      * split; [|split].
        -- destruct C1 as [new E]. rewrite Hcaps in E.
           injection E as E _. exact E.
        -- intros Qk. destruct (C2 Qk) as [new E]. rewrite Hcaps in E.
           injection E as _ E _. exact E.
        -- intros Qk Qn. destruct (C3 Qk Qn) as [new E]. rewrite Hcaps in E.
           injection E as _ _ E _. exact E.
  - intros Hnone.
    destruct (refused_record (text r) pre post Hnone) as [Hex Hfile].
    split; [exact Hex|]. intros lead items Hwf Hbf.
    apply Hfile; [exact Hwf|apply brace_free_body; assumption].
  - intros Hb. rewrite re_match_pattern. apply run_broken; assumption.
  - intros Qk Nk Qn Nn a b E Qa. apply match_description_cut; assumption.
Qed.

Lemma quoted_record_excluded_or_cut_witness :
  let pre := Py.lit "x = [" in
  let post := Py.lit " }]" in
  let items := [(rec_b, Py.lit " },")] in
  (spaced rec_apostrophe = true /\ quoted rec_apostrophe = true
   /\ broken rec_apostrophe = true
   /\ well_formed_file [] items = true
   /\ brace_free_fields rec_apostrophe = true)
  /\ excluded pre (text rec_apostrophe) post
  /\ Re.findall pattern (file_text [] items ++ text rec_apostrophe ++ post)
     = [fields rec_b]
  /\ forall cod,
       run cod (file_text [] items ++ text rec_apostrophe ++ post)
       = run cod (file_text [] items ++ post).
Proof.
  intros pre post items.
  destruct (quoted_record_excluded_or_cut rec_apostrophe pre post
              eq_refl eq_refl) as (_ & Hex & Hnone & _).
  destruct (Hex (Hnone eq_refl)) as [Hx Hfile].
  destruct (Hfile [] items eq_refl eq_refl) as [Hf Hr].
  split; [repeat split|]. split; [exact Hx|]. split; [|exact Hr].
  rewrite Hf. reflexivity.
Defined.

(** C6, as stated, fails when the quote inside the description is
    followed by a comma: the record is matched, cut at the quote. *)
Lemma quoted_record_excluded_fails :
  spaced rec_truncated = true
  /\ has_quote (description rec_truncated) = true
  /\ Re.findall pattern (text rec_truncated)
     = [[Py.lit "A"; Py.lit "n"; Py.lit "d"]]
  /\ ~ quoted_record_excluded rec_truncated.
Proof.
  split; [reflexivity|]. split; [reflexivity|]. split; [reflexivity|].
  intros H. apply (H [] [] [Py.lit "A"; Py.lit "n"; Py.lit "d"]).
  vm_compute. left. reflexivity.
Qed.

(** Records with a quote in a field, and what becomes of them. *)
Example quoted_records :
  broken (plain (Py.lit "A") (Py.lit "n") (Py.lit "it's',x")) = true
  /\ broken (plain (Py.lit "A") (Py.lit "n") (Py.lit "',x")) = true
  /\ broken (plain (Py.lit "a',b") (Py.lit "n") (Py.lit "d")) = true
  /\ broken (plain (Py.lit "A") (Py.lit "n',  nam") (Py.lit "d")) = true
  /\ broken rec_truncated = false
  /\ Re.findall pattern
       (text (plain (Py.lit "A', name: 'n', description: 'd', x: 'y")
                (Py.lit "n2") (Py.lit "d2")))
     = [[Py.lit "A"; Py.lit "n"; Py.lit "d"]].
Proof. repeat split. Qed.

(** C9.  A record with whitespace in the gaps and quote-free fields, one
    of which is empty, gives no match at its opening brace; standing in a
    file of well-formed records, with no brace in its fields, it leaves
    the count, the blocks and the template as they are without it,
    whatever the encoding of standard output. *)
Theorem empty_field_excluded (r : record_text) (pre post : str) :
  spaced r = true -> quote_free_fields r = true ->
  has_empty_field r = true ->
  excluded pre (text r) post
  /\ (forall lead items,
        well_formed_file lead items = true ->
        brace_free_fields r = true ->
        Re.findall pattern (file_text lead items ++ text r ++ post)
        = Re.findall pattern (file_text lead items ++ post)
        /\ forall cod,
             run cod (file_text lead items ++ text r ++ post)
             = run cod (file_text lead items ++ post)).
Proof.
  intros Hs Hq He.
  assert (Hnone : Re.re_match pattern (text r ++ post) = None)
    by (rewrite re_match_pattern; apply run_empty_field; assumption).
  destruct (refused_record (text r) pre post Hnone) as [Hex Hfile].
  split; [exact Hex|]. intros lead items Hwf Hbf.
  apply Hfile; [exact Hwf|apply brace_free_body; assumption].
Qed.

Lemma empty_field_excluded_witness :
  let pre := Py.lit "x = [" in
  let post := Py.lit " }]" in
  let items := [(rec_b, Py.lit " },")] in
  (spaced rec_blank = true /\ quote_free_fields rec_blank = true
   /\ has_empty_field rec_blank = true
   /\ well_formed_file [] items = true
   /\ brace_free_fields rec_blank = true)
  /\ excluded pre (text rec_blank) post
  /\ forall cod,
       run cod (file_text [] items ++ text rec_blank ++ post)
       = run cod (file_text [] items ++ post).
Proof.
  intros pre post items.
  destruct (empty_field_excluded rec_blank pre post eq_refl eq_refl eq_refl)
    as [Hex Hfile].
  split; [repeat split|]. split; [exact Hex|].
  exact (proj2 (Hfile [] items eq_refl eq_refl)).
Defined.

(** C10.  A record with whitespace in the gaps and quote-free fields
    whose description's closing quote is followed by anything but a comma,
    or by the end of the file, gives no match at its opening brace;
    standing in a file of well-formed records, with no brace in its
    fields, it leaves the count, the blocks and the template as they are
    without it, whatever the encoding of standard output. *)
Theorem missing_comma_excluded (r : record_text) (pre post : str) :
  spaced r = true -> quote_free_fields r = true ->
  starts_with_comma post = false ->
  excluded pre (text_unclosed r) post
  /\ (forall lead items,
        well_formed_file lead items = true ->
        brace_free_fields r = true ->
        Re.findall pattern (file_text lead items ++ text_unclosed r ++ post)
        = Re.findall pattern (file_text lead items ++ post)
        /\ forall cod,
             run cod (file_text lead items ++ text_unclosed r ++ post)
             = run cod (file_text lead items ++ post)).
Proof.
  intros Hs Hq Hc.
  assert (Hnone : Re.re_match pattern (text_unclosed r ++ post) = None)
    by (rewrite re_match_pattern; apply run_no_comma; assumption).
  destruct (refused_record (text_unclosed r) pre post Hnone) as [Hex Hfile].
  split; [exact Hex|]. intros lead items Hwf Hbf.
  apply Hfile; [exact Hwf|apply brace_free_body_unclosed; assumption].
Qed.

Lemma missing_comma_excluded_witness :
  let pre := Py.lit "x = [" in
  let post := Py.lit " }]" in
  let items := [(rec_b, Py.lit " },")] in
  (spaced rec_last = true /\ quote_free_fields rec_last = true
   /\ starts_with_comma post = false
   /\ well_formed_file [] items = true
   /\ brace_free_fields rec_last = true)
  /\ excluded pre (text_unclosed rec_last) post
  /\ forall cod,
       run cod (file_text [] items ++ text_unclosed rec_last ++ post)
       = run cod (file_text [] items ++ post).
Proof.
  intros pre post items.
  destruct (missing_comma_excluded rec_last pre post eq_refl eq_refl eq_refl)
    as [Hex Hfile].
  split; [repeat split|]. split; [exact Hex|].
  exact (proj2 (Hfile [] items eq_refl eq_refl)).
Defined.

(** ** The model on small inputs *)

(** A greedy repetition gives characters back when what follows needs
    them. *)
Example star_gives_back :
  Re.re_match (Re.seq [Re.Star Re.is_space; Re.Chr 32%N]) (Py.lit "  x")
  = Some (Py.lit "x", []).
Proof. reflexivity. Qed.

Example findall_sample :
  Re.findall pattern
    (Py.lit "x = [{ key: 'Alpha', name: 'A b', description: 'd{}',  t: 1 }]")
  = [[Py.lit "Alpha"; Py.lit "A b"; Py.lit "d{}"]].
Proof. vm_compute. reflexivity. Qed.

Example findall_apostrophe :
  Re.findall pattern (text rec_apostrophe ++ text rec_b)
  = [fields rec_b].
Proof. vm_compute. reflexivity. Qed.

Example dumps_alpha :
  Json.dumps (Json.Obj (template (text alpha)))
  = Py.lit "{" ++ [10%N]
    ++ Py.lit "  " ++ dq ++ Py.lit "clangFormat.option.Alpha.name" ++ dq
    ++ Py.lit ": " ++ dq ++ dq ++ Py.lit "," ++ [10%N]
    ++ Py.lit "  " ++ dq ++ Py.lit "clangFormat.option.Alpha.description" ++ dq
    ++ Py.lit ": " ++ dq ++ dq ++ [10%N]
    ++ Py.lit "}".
Proof. vm_compute. reflexivity. Qed.

(** The diagnostic block of the sample record: the identifier, then the
    two original-language values, then an empty line. *)
Example block_alpha :
  block (fields alpha)
  = Text.item ++ Py.lit "Alpha" ++ [10%N]
    ++ Text.item_name ++ [21517; 31216; 65; 10]%N
    ++ Text.item_description ++ [25551; 36848; 65; 10]%N
    ++ [10%N].
Proof. reflexivity. Qed.

Example universal_newlines_sample :
  Os.universal_newlines [97; 13; 10; 98; 13; 99]%N = [97; 10; 98; 10; 99]%N.
Proof. reflexivity. Qed.

(* ================================================================== *)
(** * Further properties of the script *)

(** ** What the pattern matches, exactly *)

(** X1.  The pattern matches at the start of a text exactly when the text
    begins with a well-formed record; the match then ends right after the
    comma that closes the description and captures the three fields. *)
Theorem match_iff_well_formed_record (s rest : str) (caps : list str) :
  Re.re_match pattern s = Some (rest, caps) <->
  exists r, well_formed r = true /\ s = text r ++ rest /\ caps = fields r.
Proof.
  split; [apply match_inv|].
  intros (r & Hwf & -> & ->). apply match_well_formed, Hwf.
Qed.

Lemma match_iff_well_formed_record_witness :
  well_formed alpha = true
  /\ Re.re_match pattern (text alpha ++ Py.lit " }")
     = Some (Py.lit " }", fields alpha).
Proof.
  split; [reflexivity|].
  apply (proj2 (match_iff_well_formed_record (text alpha ++ Py.lit " }")
                  (Py.lit " }") (fields alpha))).
  exists alpha. repeat split.
Defined.

(** X2.  Every match [findall] returns is a well-formed record standing
    in the text: three groups, each non-empty and free of single quotes. *)
Theorem findall_yields_records (content : str) (m : list str) :
  In m (Re.findall pattern content) ->
  exists pre r rest,
    content = pre ++ text r ++ rest
    /\ well_formed r = true
    /\ m = [key r; name r; description r]
    /\ (nonempty (key r) = true /\ quote_free (key r) = true)
    /\ (nonempty (name r) = true /\ quote_free (name r) = true)
    /\ (nonempty (description r) = true /\ quote_free (description r) = true).
Proof.
  intros Hm. unfold Re.findall in Hm.
  apply in_map_iff in Hm as [[p caps] [E Hin]]. simpl in E. subst caps.
  apply scan_sound in Hin as [_ [rest Hr]]. rewrite Nat.sub_0_r in Hr.
  apply match_inv in Hr as (r & Hwf & Hs & ->).
  exists (firstn p content), r, rest.
  split; [rewrite <- Hs; symmetry; apply firstn_skipn|].
  split; [exact Hwf|]. split; [reflexivity|].
  destruct (well_formed_inv r Hwf) as (_ & K1 & K2 & N1 & N2 & D1 & D2).
  repeat split; assumption.
Qed.

Lemma findall_yields_records_witness :
  In (fields rec_b) (Re.findall pattern (text rec_apostrophe ++ text rec_b))
  /\ exists pre r rest,
       text rec_apostrophe ++ text rec_b = pre ++ text r ++ rest
       /\ well_formed r = true /\ fields rec_b = fields r.
Proof.
  assert (H : In (fields rec_b)
                (Re.findall pattern (text rec_apostrophe ++ text rec_b)))
    by (vm_compute; left; reflexivity).
  split; [exact H|].
  destruct (findall_yields_records _ _ H) as (pre & r & rest & E & W & F & _).
  exists pre, r, rest. repeat split; assumption.
Defined.

(** ** Where matches can start *)

Lemma scan_le_braces (s : str) :
  forall pos skip,
    length (Re.scan pattern s pos skip) <= count_occ N.eq_dec s Re.brace.
Proof.
  induction s as [|c s IH]; intros pos skip.
  - destruct skip; simpl; lia.
  - cbn [Re.scan]. destruct skip as [|n].
    + destruct (Re.re_match pattern (c :: s)) as [[rest caps]|] eqn:E.
      * assert (Hc : c = Re.brace).
        { destruct (N.eqb_spec c Re.brace) as [H|H]; [exact H|].
          apply N.eqb_neq in H.
          rewrite (match_needs_brace c s H) in E. discriminate. }
        subst c. rewrite count_occ_cons_eq by reflexivity.
        cbn [length]. apply le_n_S, IH.
      * destruct (N.eq_dec c Re.brace) as [H|H].
        -- rewrite count_occ_cons_eq by exact H. apply Nat.le_le_succ_r, IH.
        -- rewrite count_occ_cons_neq by exact H. apply IH.
    + destruct (N.eq_dec c Re.brace) as [H|H].
      * rewrite count_occ_cons_eq by exact H. apply Nat.le_le_succ_r, IH.
      * rewrite count_occ_cons_neq by exact H. apply IH.
Qed.

(** X3.  Every match starts at an opening brace of the text, and there
    are at most as many matches as opening braces: a text without one
    gives none. *)
Theorem matches_start_at_braces (content : str) :
  (forall p caps,
     In (p, caps) (Re.finditer pattern content) ->
     nth_error content p = Some Re.brace)
  /\ length (Re.findall pattern content)
     <= count_occ N.eq_dec content Re.brace.
Proof.
  split.
  - intros p caps Hin. apply scan_sound in Hin as [_ [rest Hr]].
    rewrite Nat.sub_0_r in Hr.
    apply match_inv in Hr as (r & _ & Hs & _).
    rewrite <- (Nat.add_0_r p), <- nth_error_skipn, Hs. reflexivity.
  - unfold Re.findall, Re.finditer. rewrite length_map. apply scan_le_braces.
Qed.

(** ** The run as a whole *)



(** ** The template in general *)

Lemma get_absent (d : Dict.t) (k : str) :
  ~ In k (Dict.keys d) -> Dict.get d k = None.
Proof.
  induction d as [|[k' v'] d IH]; simpl; intros H; [reflexivity|].
  destruct (Py.str_eqb k' k) eqn:E.
  - apply str_eqb_eq in E. tauto.
  - apply IH. tauto.
Qed.

(** X6.  For every text the keys of the template are, in order, the name
    key and the description key of each distinct identifier, identifiers
    taken in the order of their first match. *)
Theorem template_keys_in_general (content : str) :
  let ids := List.map key_of (Re.findall pattern content) in
  Dict.keys (template content) = List.flat_map record_keys (first_seen ids)
  /\ NoDup (first_seen ids)
  /\ (forall k, In k (first_seen ids) <-> In k ids)
  /\ (forall i ki kj,
        nth_error ids i = Some ki -> In kj ids ->
        ~ In kj (firstn (S i) ids) ->
        exists p q,
          Dict.index (first_seen ids) ki = Some p
          /\ Dict.index (first_seen ids) kj = Some q /\ p < q).
Proof.
  intros ids. split; [|split; [|split]].
  - rewrite template_slots. apply keys_slots_flat.
  - apply first_seen_nodup.
  - apply in_first_seen.
  - intros i ki kj Hi Hin Hnot. apply (first_seen_order ids i ki kj Hi Hnot Hin).
Qed.

(** X7.  Looking a key up in the template gives the empty string when it
    is the name key or the description key of an extracted identifier, and
    nothing otherwise. *)
Theorem template_lookup (content : str) (k : str) :
  let ids := List.map key_of (Re.findall pattern content) in
  ((exists id, In id ids /\ In k (record_keys id)) ->
   Dict.get (template content) k = Some (Json.Str []))
  /\ (~ (exists id, In id ids /\ In k (record_keys id)) ->
      Dict.get (template content) k = None).
Proof.
  intros ids. split; intros H.
  - apply get_of_key; [apply template_keys, H|apply template_values].
  - apply get_absent. intros Hin. apply H, template_keys, Hin.
Qed.

Lemma template_lookup_witness :
  let content := file_text [] twins in
  ((exists id,
      In id (List.map key_of (Re.findall pattern content))
      /\ In (name_key (Py.lit "A")) (record_keys id))
   /\ Dict.get (template content) (name_key (Py.lit "A"))
      = Some (Json.Str []))
  /\ (~ (exists id,
           In id (List.map key_of (Re.findall pattern content))
           /\ In (name_key (Py.lit "B")) (record_keys id))
      /\ Dict.get (template content) (name_key (Py.lit "B")) = None).
Proof.
  intros content.
  assert (H1 : exists id,
             In id (List.map key_of (Re.findall pattern content))
             /\ In (name_key (Py.lit "A")) (record_keys id)).
  { exists (Py.lit "A"). split; [vm_compute; tauto|simpl; tauto]. }
  assert (H2 : ~ (exists id,
             In id (List.map key_of (Re.findall pattern content))
             /\ In (name_key (Py.lit "B")) (record_keys id))).
  { intros [id [Hid Hk]]. vm_compute in Hid.
    destruct Hid as [<-|[<-|[]]]; vm_compute in Hk;
      destruct Hk as [Hk|[Hk|[]]]; discriminate Hk. }
  split; split; try assumption.
  - exact (proj1 (template_lookup content (name_key (Py.lit "A"))) H1).
  - exact (proj2 (template_lookup content (name_key (Py.lit "B"))) H2).
Defined.

(** X8.  Layout does not matter: two files of well-formed records whose
    records carry the same fields in the same order give the same output,
    whatever whitespace stands in the gaps of the records, whatever
    brace-free text stands between them, and whatever the encoding of
    standard output. *)
Theorem layout_does_not_matter
  (lead lead' : str) (items items' : list (record_text * str)) :
  well_formed_file lead items = true ->
  well_formed_file lead' items' = true ->
  List.map (fun it => fields (fst it)) items
  = List.map (fun it => fields (fst it)) items' ->
  Re.findall pattern (file_text lead items)
  = Re.findall pattern (file_text lead' items')
  /\ forall cod,
       run cod (file_text lead items) = run cod (file_text lead' items').
Proof.
  intros H H' E.
  assert (F : Re.findall pattern (file_text lead items)
              = Re.findall pattern (file_text lead' items'))
    by (rewrite (file_matches _ _ H), (file_matches _ _ H'); exact E).
  split; [exact F|intros cod; apply run_same_matches, F].
Qed.

Lemma layout_does_not_matter_witness :
  let one := [(alpha, Py.lit " type: 'x' }")] in
  let two := [(alpha_multiline, [10%N] ++ Py.lit "  type: 'y'," ++ [10; 125]%N)] in
  (well_formed_file [] one = true
   /\ well_formed_file (Py.lit "export const db = [") two = true
   /\ file_text [] one <> file_text (Py.lit "export const db = [") two)
  /\ forall cod,
       run cod (file_text [] one)
       = run cod (file_text (Py.lit "export const db = [") two).
Proof.
  intros one two. split; [split; [reflexivity|split; [reflexivity|discriminate]]|].
  exact (proj2 (layout_does_not_matter [] (Py.lit "export const db = [")
                  one two eq_refl eq_refl eq_refl)).
Defined.

(** X9.  The pattern never needs to backtrack: whatever is to follow it,
    the backtracking matcher does what a single pass from left to right
    does, taking the longest run at every repetition. *)
Theorem pattern_needs_no_backtracking (s : str) (caps : list str) (k : Re.cont) :
  Re.m pattern s caps k =
  match Det.run pattern s caps with
  | Some (s', caps') => k s' caps'
  | None => None
  end.
Proof.
  apply (@m_run pattern (fun _ => False) k pattern_guarded).
  intros p [].
Qed.

(** X10.  Generated keys never collide: different identifiers have
    different name keys and different description keys, and no name key is
    a description key. *)
Theorem generated_keys_do_not_collide (a b : str) :
  (name_key a = name_key b <-> a = b)
  /\ (description_key a = description_key b <-> a = b)
  /\ name_key a <> description_key b.
Proof.
  split; [|split].
  - split; [apply name_key_inj|intros ->; reflexivity].
  - split; [apply description_key_inj|intros ->; reflexivity].
  - apply name_key_not_description_key.
Qed.


Lemma matches_start_at_braces_witness :
  In (5, fields rec_b) (Re.finditer pattern (Py.lit "x = [" ++ text rec_b))
  /\ nth_error (Py.lit "x = [" ++ text rec_b) 5 = Some Re.brace.
Proof.
  assert (H : In (5, fields rec_b)
                (Re.finditer pattern (Py.lit "x = [" ++ text rec_b)))
    by (vm_compute; left; reflexivity).
  split; [exact H|].
  exact (proj1 (matches_start_at_braces (Py.lit "x = [" ++ text rec_b))
           5 (fields rec_b) H).
Defined.

Lemma template_keys_in_general_witness :
  let content := file_text [] a_b_a in
  let ids := List.map key_of (Re.findall pattern content) in
  (nth_error ids 0 = Some (Py.lit "A") /\ In (Py.lit "B") ids
   /\ ~ In (Py.lit "B") (firstn 1 ids))
  /\ Dict.keys (template content)
     = List.flat_map record_keys [Py.lit "A"; Py.lit "B"]
  /\ exists p q,
       Dict.index (first_seen ids) (Py.lit "A") = Some p
       /\ Dict.index (first_seen ids) (Py.lit "B") = Some q /\ p < q.
Proof.
  intros content ids.
  assert (H0 : nth_error ids 0 = Some (Py.lit "A")) by reflexivity.
  assert (H1 : In (Py.lit "B") ids) by (vm_compute; tauto).
  assert (Hn : ~ In (Py.lit "B") (firstn 1 ids)).
  { vm_compute. intros [H|[]]. discriminate. }
  destruct (template_keys_in_general content) as (K & _ & _ & O).
  split; [split; [exact H0|split; [exact H1|exact Hn]]|]. split.
  - rewrite K. reflexivity.
  - exact (O 0 (Py.lit "A") (Py.lit "B") H0 H1 Hn).
Defined.

(** ** The escaping of keys *)

Lemma unescape_escape_char (c : codepoint) (t : str) :
  unescape (Json.escape_char c ++ t) = option_map (cons c) (unescape t).
Proof.
  destruct (c <? 32)%N eqn:Hlow.
  - apply below_32 in Hlow. vm_compute in Hlow.
    repeat (destruct Hlow as [<-|Hlow]; [reflexivity|]). contradiction.
  - destruct (N.eqb_spec c 92) as [->|H92]; [reflexivity|].
    destruct (N.eqb_spec c 34) as [->|H34]; [reflexivity|].
    assert (E : Json.escape_char c = [c]).
    { unfold Json.escape_char. apply N.eqb_neq in H92, H34.
      rewrite H92, H34, Hlow.
      apply N.ltb_ge in Hlow.
      repeat match goal with
             | |- context [N.eqb c ?n] =>
                 destruct (N.eqb_spec c n); [lia|]
             end.
      reflexivity. }
    rewrite E. cbn [app unescape].
    apply N.eqb_neq in H92, H34. rewrite H92, H34, Hlow. reflexivity.
Qed.

Lemma unescape_escape (s : str) :
  unescape (List.flat_map Json.escape_char s) = Some s.
Proof.
  induction s as [|c s IH]; [reflexivity|].
  cbn [flat_map]. rewrite unescape_escape_char, IH. reflexivity.
Qed.

Lemma escape_char_printable (c : codepoint) :
  Forall (fun x => (32 <= x)%N) (Json.escape_char c).
Proof.
  destruct (c <? 32)%N eqn:Hlow.
  - apply below_32 in Hlow. vm_compute in Hlow.
    repeat (destruct Hlow as [<-|Hlow];
            [vm_compute; repeat constructor; discriminate|]).
    contradiction.
  - destruct (N.eqb_spec c 92) as [->|H92];
      [vm_compute; repeat constructor; discriminate|].
    destruct (N.eqb_spec c 34) as [->|H34];
      [vm_compute; repeat constructor; discriminate|].
    unfold Json.escape_char. apply N.eqb_neq in H92, H34.
    rewrite H92, H34, Hlow. apply N.ltb_ge in Hlow.
    repeat match goal with
           | |- context [N.eqb c ?n] => destruct (N.eqb_spec c n); [lia|]
           end.
    constructor; [exact Hlow|constructor].
Qed.

Lemma escape_char_plain (c : codepoint) :
  plain_char c = true -> Json.escape_char c = [c].
Proof.
  unfold plain_char. intros H.
  apply andb_prop in H as [H H92]. apply andb_prop in H as [Hlow H34].
  apply negb_true_iff in H92, H34, Hlow.
  unfold Json.escape_char. rewrite H92, H34, Hlow. apply N.ltb_ge in Hlow.
  repeat match goal with
         | |- context [N.eqb c ?n] => destruct (N.eqb_spec c n); [lia|]
         end.
  reflexivity.
Qed.

Lemma encode_basestring_printable (s : str) :
  Forall (fun x => (32 <= x)%N) (Json.encode_basestring s).
Proof.
  unfold Json.encode_basestring. apply Forall_app. split;
    [repeat constructor; discriminate|].
  apply Forall_app. split; [|repeat constructor; discriminate].
  induction s as [|c s IH]; [constructor|].
  cbn [flat_map]. apply Forall_app. split;
    [apply escape_char_printable|exact IH].
Qed.

(** X11.  The escaping of a key loses nothing: the text between the
    quotes reads back to the key, so two different keys are never printed
    alike. *)
Theorem escaping_is_lossless :
  (forall s, unescape (List.flat_map Json.escape_char s) = Some s)
  /\ (forall a b,
        Json.encode_basestring a = Json.encode_basestring b -> a = b).
Proof.
  split; [apply unescape_escape|].
  intros a b H. unfold Json.encode_basestring in H.
  apply app_inv_head in H. apply app_inv_tail in H.
  pose proof (unescape_escape a) as Ha. rewrite H, unescape_escape in Ha.
  inversion Ha. reflexivity.
Qed.

(** X12.  An encoded key holds no control character, whatever the key;
    and a key made of characters other than the double quote, the
    backslash and the control characters is printed as it is between two
    double quotes, non-ASCII characters included. *)
Theorem encoded_key_is_printable (s : str) :
  Forall (fun x => (32 <= x)%N) (Json.encode_basestring s)
  /\ (forallb plain_char s = true ->
      Json.encode_basestring s = dq ++ s ++ dq).
Proof.
  split.
  - apply encode_basestring_printable.
  - intros H. unfold Json.encode_basestring, dq. f_equal. f_equal.
    induction s as [|c s IH]; [reflexivity|].
    cbn [forallb] in H. apply andb_prop in H as [Hc Hs].
    cbn [flat_map]. rewrite (escape_char_plain c Hc), (IH Hs). reflexivity.
Qed.

Lemma encoded_key_is_printable_witness :
  forallb plain_char (name_key (key alpha_multiline)) = true
  /\ Json.encode_basestring (name_key [21517; 31216]%N)
     = dq ++ name_key [21517; 31216]%N ++ dq.
Proof.
  split; [reflexivity|].
  exact (proj2 (encoded_key_is_printable (name_key [21517; 31216]%N)) eq_refl).
Defined.

(** ** The lines of the printed template *)

Lemma printable_no_newline (l : str) :
  Forall (fun x => (32 <= x)%N) l -> count_occ N.eq_dec l 10%N = 0.
Proof.
  induction 1 as [|x l Hx _ IH]; [reflexivity|].
  rewrite count_occ_cons_neq; [exact IH|]. intros ->. lia.
Qed.

Lemma flat_line_no_newline (k : str) :
  count_occ N.eq_dec (flat_line k) 10%N = 0.
Proof.
  apply printable_no_newline. unfold flat_line.
  apply Forall_app. split; [apply encode_basestring_printable|].
  repeat constructor; discriminate.
Qed.

Lemma join_lines_newlines (ks : list str) (k : str) :
  count_occ N.eq_dec
    (Py.join (Py.lit "," ++ Json.newline_indent 1)
       (List.map flat_line (k :: ks))) 10%N
  = length ks.
Proof.
  revert k. induction ks as [|k' ks IH]; intros k.
  - apply flat_line_no_newline.
  - set (sep := Py.lit "," ++ Json.newline_indent 1) in *.
    assert (E : Py.join sep (List.map flat_line (k :: k' :: ks))
                = flat_line k ++ sep
                  ++ Py.join sep (List.map flat_line (k' :: ks)))
      by reflexivity.
    rewrite E.
    rewrite (@count_occ_app _ N.eq_dec (flat_line k) _ 10%N).
    rewrite (@count_occ_app _ N.eq_dec sep _ 10%N).
    rewrite flat_line_no_newline, IH. reflexivity.
Qed.

(** X13.  The printed template has one line per key between the two
    brace lines, even when an identifier holds a line break: its text has
    no line break when there is no key, and one more than it has keys
    otherwise. *)
Theorem printed_template_lines (content : str) :
  count_occ N.eq_dec (Json.dumps (Json.Obj (template content))) 10%N
  = match Dict.keys (template content) with
    | [] => 0
    | ks => S (length ks)
    end.
Proof.
  rewrite (dumps_flat _ (template_values content)).
  destruct (Dict.keys (template content)) as [|k ks]; [reflexivity|].
  unfold flat_object_text.
  rewrite (@count_occ_app _ N.eq_dec (Py.lit "{") _ 10%N).
  rewrite (@count_occ_app _ N.eq_dec (Json.newline_indent 1) _ 10%N).
  rewrite (@count_occ_app _ N.eq_dec
             (Py.join (Py.lit "," ++ Json.newline_indent 1)
                (List.map flat_line (k :: ks))) _ 10%N).
  rewrite join_lines_newlines.
  assert (A : count_occ N.eq_dec (Py.lit "{") 10%N = 0) by reflexivity.
  assert (B : count_occ N.eq_dec (Json.newline_indent 1) 10%N = 1)
    by reflexivity.
  assert (C : count_occ N.eq_dec (Json.newline_indent 0 ++ Py.lit "}") 10%N
              = 1) by reflexivity.
  rewrite A, B, C. cbn [length]. lia.
Qed.

(** ** Line endings *)

Lemma universal_newlines_no_cr_upto (n : nat) :
  forall s, length s <= n -> ~ In 13%N (Os.universal_newlines s).
Proof.
  induction n as [|n IH]; intros s Hlen.
  - destruct s; [intros []|simpl in Hlen; lia].
  - destruct s as [|c rest]; [intros []|].
    simpl in Hlen. cbn [Os.universal_newlines].
    destruct (N.eqb_spec c 13) as [->|Hc].
    + destruct rest as [|d rest']; [intros [H|[]]; discriminate|].
      simpl in Hlen.
      destruct (N.eqb d 10); intros [H|H]; try discriminate;
        revert H; apply IH; simpl; lia.
    + intros [H|H]; [congruence|]. revert H. apply IH. lia.
Qed.

Lemma universal_newlines_no_cr (s : str) :
  ~ In 13%N (Os.universal_newlines s).
Proof. apply (universal_newlines_no_cr_upto (length s)). lia. Qed.

Lemma field_in_text (r : record_text) (f : str) (c : codepoint) :
  In f (fields r) -> In c f -> In c (text r).
Proof.
  intros Hf Hc. unfold text, text_unclosed. simpl in Hf.
  repeat rewrite in_app_iff.
  destruct Hf as [<-|[<-|[<-|[]]]]; tauto.
Qed.

(** X14.  The loaded text never holds a carriage return, whatever the
    line endings of the file, so no extracted field holds one either. *)
Theorem loaded_text_has_no_carriage_return (w : Os.world) (content : str) :
  Os.read_text w source_path = inr content ->
  ~ In 13%N content
  /\ (forall m f,
        In m (Re.findall pattern content) -> In f m -> ~ In 13%N f).
Proof.
  intros Hread.
  assert (Hcr : ~ In 13%N content).
  { unfold Os.read_text in Hread.
    destruct (Os.fs w source_path) as [| |bytes]; try discriminate.
    destruct (Os.utf8_decode bytes) as [s|]; [|discriminate].
    inversion Hread. apply universal_newlines_no_cr. }
  split; [exact Hcr|]. intros m f Hm Hf Hin. apply Hcr.
  unfold Re.findall in Hm.
  apply in_map_iff in Hm as [[p caps] [E Hp]]. simpl in E. subst caps.
  apply scan_sound in Hp as [_ [rest Hr]]. rewrite Nat.sub_0_r in Hr.
  apply match_inv in Hr as (r & _ & Hs & ->).
  rewrite <- (firstn_skipn p content), Hs.
  apply in_or_app. right. apply in_or_app. left.
  apply (field_in_text r f 13%N Hf Hin).
Qed.

Lemma loaded_text_has_no_carriage_return_witness :
  let bytes :=
    list_byte_of_string "{ key: 'A',"
    ++ [Byte.x0d; Byte.x0a]
    ++ list_byte_of_string "name: 'n', description: 'd',"
    ++ [Byte.x0d] in
  Os.read_text (world_with bytes) source_path
  = inr (Py.lit "{ key: 'A'," ++ [10%N]
         ++ Py.lit "name: 'n', description: 'd'," ++ [10%N])
  /\ ~ In 13%N (Py.lit "{ key: 'A'," ++ [10%N]
               ++ Py.lit "name: 'n', description: 'd'," ++ [10%N]).
Proof.
  intros bytes.
  assert (H : Os.read_text (world_with bytes) source_path
              = inr (Py.lit "{ key: 'A'," ++ [10%N]
                     ++ Py.lit "name: 'n', description: 'd'," ++ [10%N]))
    by (vm_compute; reflexivity).
  split; [exact H|].
  exact (proj1 (loaded_text_has_no_carriage_return (world_with bytes) _ H)).
Defined.

(** ** Matches from left to right *)

Lemma scan_offsets_ge (r : Re.regex) (s : str) :
  forall pos skip q c,
    In (q, c) (Re.scan r s pos skip) -> pos + skip <= q.
Proof.
  induction s as [|x s IH]; intros pos skip q c H.
  - simpl in H. destruct skip; [|contradiction].
    destruct (Re.re_match r []) as [[? ?]|]; [|contradiction].
    destruct H as [H|[]]. inversion H. lia.
  - cbn [Re.scan] in H. destruct skip as [|n].
    + destruct (Re.re_match r (x :: s)) as [[rest caps]|].
      * destruct H as [H|H]; [inversion H; lia|]. apply IH in H. lia.
      * apply IH in H. lia.
    + apply IH in H. lia.
Qed.

Lemma skipn_step (x : codepoint) (s : str) (p pos : nat) :
  S pos <= p -> skipn (p - pos) (x :: s) = skipn (p - S pos) s.
Proof.
  intros H. replace (p - pos) with (S (p - S pos)) by lia. reflexivity.
Qed.

(** Around a reported match: the pattern matches there, earlier matches
    start before it, later ones start at or after its end. *)
Lemma scan_split (r : Re.regex) (s : str) :
  forall pos skip l1 p caps l2,
    Re.scan r s pos skip = l1 ++ (p, caps) :: l2 ->
    exists rest,
      Re.re_match r (skipn (p - pos) s) = Some (rest, caps)
      /\ (forall q c, In (q, c) l1 -> q < p)
      /\ (forall q c,
            In (q, c) l2 ->
            p < q
            /\ p + (length (skipn (p - pos) s) - length rest) <= q).
Proof.
  induction s as [|x s IH]; intros pos skip l1 p caps l2 H.
  - simpl in H. destruct skip; [|destruct l1; discriminate].
    destruct (Re.re_match r []) as [[rest caps0]|] eqn:E;
      [|destruct l1; discriminate].
    destruct l1 as [|a l1]; [|destruct l1; discriminate].
    inversion H; subst. exists rest. rewrite Nat.sub_diag.
    split; [exact E|]. split; intros q c [].
  - assert (Hin : In (p, caps) (Re.scan r (x :: s) pos skip))
      by (rewrite H; apply in_or_app; right; left; reflexivity).
    cbn [Re.scan] in H, Hin. destruct skip as [|n].
    + destruct (Re.re_match r (x :: s)) as [[rest caps0]|] eqn:E.
      * remember (length (x :: s) - length rest - 1) as k eqn:Ek.
        destruct l1 as [|a l1].
        -- cbn [app] in H. injection H as Ep Ec El. subst p caps0.
           exists rest. rewrite Nat.sub_diag.
           split; [exact E|]. split; [intros q c []|].
           intros q c Hq. rewrite <- El in Hq. apply scan_offsets_ge in Hq.
           cbn [skipn]. lia.
        -- cbn [app] in H. injection H as Ea H2. subst a.
           assert (Hp : In (p, caps) (Re.scan r s (S pos) k))
             by (rewrite H2; apply in_or_app; right; left; reflexivity).
           apply scan_offsets_ge in Hp.
           destruct (IH _ _ _ _ _ _ H2) as (rest' & M & B & A).
           exists rest'. rewrite skipn_step by lia.
           split; [exact M|]. split; [|exact A].
           intros q c [Hq|Hq]; [inversion Hq; lia|apply (B q c Hq)].
      * apply scan_offsets_ge in Hin.
        destruct (IH _ _ _ _ _ _ H) as (rest' & M & B & A).
        exists rest'. rewrite skipn_step by lia. auto.
    + apply scan_offsets_ge in Hin.
      destruct (IH _ _ _ _ _ _ H) as (rest' & M & B & A).
      exists rest'. rewrite skipn_step by lia. auto.
Qed.

(** X15.  Matches are reported from left to right and never overlap:
    around any reported match, the text at its offset is a well-formed
    record whose fields are the groups, every earlier match starts before
    it and every later match starts at or after the end of that record. *)
Theorem matches_do_not_overlap
  (content : str) (l1 l2 : list (nat * list str)) (p : nat) (caps : list str) :
  Re.finditer pattern content = l1 ++ (p, caps) :: l2 ->
  exists r rest,
    well_formed r = true /\ caps = fields r
    /\ skipn p content = text r ++ rest
    /\ (forall q c, In (q, c) l1 -> q < p)
    /\ (forall q c, In (q, c) l2 -> p + length (text r) <= q).
Proof.
  intros H. unfold Re.finditer in H.
  destruct (scan_split pattern content 0 0 l1 p caps l2 H)
    as (rest & M & B & A).
  rewrite Nat.sub_0_r in M, A.
  apply match_inv in M as (r & Hwf & Hs & Hc).
  exists r, rest. split; [exact Hwf|]. split; [exact Hc|].
  split; [exact Hs|]. split; [exact B|].
  intros q c Hq. destruct (A q c Hq) as [_ Hle].
  rewrite Hs, length_app in Hle. lia.
Qed.

Lemma matches_do_not_overlap_witness :
  let content := text rec_a ++ Py.lit " }," ++ text rec_b in
  Re.finditer pattern content
  = [] ++ (0, fields rec_a) :: [(length (text rec_a) + 3, fields rec_b)]
  /\ exists r rest,
       fields rec_a = fields r
       /\ skipn 0 content = text r ++ rest
       /\ 0 + length (text r) <= length (text rec_a) + 3.
Proof.
  intros content.
  assert (H : Re.finditer pattern content
              = [] ++ (0, fields rec_a)
                :: [(length (text rec_a) + 3, fields rec_b)])
    by (vm_compute; reflexivity).
  split; [exact H|].
  destruct (matches_do_not_overlap content [] _ 0 (fields rec_a) H)
    as (r & rest & _ & Hc & Hs & _ & A).
  exists r, rest. split; [exact Hc|]. split; [exact Hs|].
  apply (A _ (fields rec_b)). left. reflexivity.
Defined.

(** ** The decoder, one character at a time *)

Lemma low_fails (x lo : N) :
  (128 <=? x)%N = false -> (128 <= lo)%N -> (lo <=? x)%N = false.
Proof.
  intros H Hlo. apply N.leb_gt in H. apply N.leb_gt. lia.
Qed.

Lemma low_not_cont (x : N) : (128 <=? x)%N = false -> Os.is_cont x = false.
Proof. intros H. unfold Os.is_cont. rewrite H. reflexivity. Qed.

Lemma decode_view (b0 : Byte.byte) (r0 : list Byte.byte) :
  Os.utf8_decode (b0 :: r0) =
  let x0 := Byte.to_N b0 in
  if (x0 <? 128)%N then option_map (cons x0) (Os.utf8_decode r0)
  else
    match width x0 with
    | 0 => None
    | n =>
        match take_high n r0 with
        | Some (cs, rest) =>
            match sequence_value x0 cs with
            | Some c => option_map (cons c) (Os.utf8_decode rest)
            | None => None
            end
        | None => None
        end
    end.
Proof.
  cbn [Os.utf8_decode]. cbv zeta. unfold width.
  set (x0 := Byte.to_N b0).
  destruct (x0 <? 128)%N; [reflexivity|].
  destruct ((194 <=? x0) && (x0 <=? 223))%N eqn:W2.
  - destruct r0 as [|b1 r1]; [reflexivity|].
    cbn [take_high]. unfold high.
    destruct (128 <=? Byte.to_N b1)%N eqn:H1.
    + cbn [take_high sequence_value]. rewrite W2. cbn [andb].
      destruct (Os.is_cont (Byte.to_N b1)); reflexivity.
    + rewrite (low_not_cont _ H1). reflexivity.
  - destruct ((224 <=? x0) && (x0 <=? 239))%N eqn:W3.
    + destruct r0 as [|b1 [|b2 r2]]; cbn [take_high]; unfold high.
      * reflexivity.
      * destruct (128 <=? Byte.to_N b1)%N; reflexivity.
      * destruct (128 <=? Byte.to_N b1)%N eqn:H1.
        -- destruct (128 <=? Byte.to_N b2)%N eqn:H2.
           ++ cbn [sequence_value]. rewrite W3. cbn [andb].
              match goal with
              | |- (if ?c then _ else _) = _ => destruct c; reflexivity
              end.
           ++ rewrite (low_not_cont _ H2), andb_false_r. reflexivity.
        -- rewrite (low_fails (Byte.to_N b1)
                      (if (x0 =? 224)%N then 160%N else 128%N) H1)
             by (destruct (x0 =? 224)%N; lia).
           reflexivity.
    + destruct ((240 <=? x0) && (x0 <=? 244))%N eqn:W4; [|reflexivity].
      destruct r0 as [|b1 [|b2 [|b3 r3]]]; cbn [take_high]; unfold high.
      * reflexivity.
      * destruct (128 <=? Byte.to_N b1)%N; reflexivity.
      * destruct (128 <=? Byte.to_N b1)%N; [|reflexivity].
        destruct (128 <=? Byte.to_N b2)%N; reflexivity.
      * destruct (128 <=? Byte.to_N b1)%N eqn:H1.
        -- destruct (128 <=? Byte.to_N b2)%N eqn:H2.
           ++ destruct (128 <=? Byte.to_N b3)%N eqn:H3.
              ** cbn [sequence_value]. rewrite W4. cbn [andb].
                 match goal with
                 | |- (if ?c then _ else _) = _ => destruct c; reflexivity
                 end.
              ** rewrite (low_not_cont _ H3), andb_false_r. reflexivity.
           ++ rewrite (low_not_cont _ H2), andb_false_r. reflexivity.
        -- rewrite (low_fails (Byte.to_N b1)
                      (if (x0 =? 240)%N then 144%N else 128%N) H1)
             by (destruct (x0 =? 240)%N; lia).
           reflexivity.
Qed.

Lemma take_high_suffix (n : nat) :
  forall r cs rest,
    take_high n r = Some (cs, rest) ->
    exists pre, r = pre ++ rest /\ length pre = n.
Proof.
  induction n as [|n IH]; intros r cs rest H.
  - inversion H. exists []. split; reflexivity.
  - cbn [take_high] in H. destruct r as [|b r]; [discriminate|].
    destruct (high b); [|discriminate].
    destruct (take_high n r) as [[cs' rest']|] eqn:E; [|discriminate].
    inversion H; subst. destruct (IH _ _ _ E) as [pre [-> Hl]].
    exists (b :: pre). split; [reflexivity|simpl; lia].
Qed.

Lemma decode_induction (P : list Byte.byte -> Prop) :
  P [] ->
  (forall b0 r0,
     (Byte.to_N b0 <? 128)%N = true -> P r0 -> P (b0 :: r0)) ->
  (forall b0 r0,
     (Byte.to_N b0 <? 128)%N = false ->
     (forall cs rest,
        take_high (width (Byte.to_N b0)) r0 = Some (cs, rest) -> P rest) ->
     P (b0 :: r0)) ->
  forall bs, P bs.
Proof.
  intros Hnil Hlow Hhigh.
  assert (H : forall n bs, length bs <= n -> P bs).
  { induction n as [|n IH]; intros bs Hlen.
    - destruct bs; [exact Hnil|simpl in Hlen; lia].
    - destruct bs as [|b0 r0]; [exact Hnil|]. simpl in Hlen.
      destruct (Byte.to_N b0 <? 128)%N eqn:E.
      + apply Hlow; [exact E|apply IH; lia].
      + apply Hhigh; [exact E|]. intros cs rest Ht. apply IH.
        destruct (take_high_suffix _ _ _ _ Ht) as [pre [-> _]].
        rewrite length_app in Hlen. lia. }
  intros bs. apply (H (length bs)). lia.
Qed.

Lemma sequence_value_high (x0 : N) (cs : list N) (c : N) :
  sequence_value x0 cs = Some c -> (128 <= c)%N.
Proof.
  unfold sequence_value.
  destruct cs as [|x1 [|x2 [|x3 [|x4 cs]]]]; try discriminate.
  - destruct ((194 <=? x0) && (x0 <=? 223))%N eqn:W; [|discriminate].
    destruct (Os.is_cont x1) eqn:C1; [|discriminate].
    cbn [andb]. intros H. inversion H.
    apply andb_prop in W as [W _]. apply N.leb_le in W.
    unfold Os.is_cont in C1. apply andb_prop in C1 as [C1 _].
    apply N.leb_le in C1. lia.
  - destruct ((224 <=? x0) && (x0 <=? 239))%N eqn:W; [|discriminate].
    cbn [andb].
    match goal with
    | |- (if ?c then _ else _) = _ -> _ => destruct c eqn:C; [|discriminate]
    end.
    intros H. inversion H.
    apply andb_prop in W as [W _]. apply N.leb_le in W.
    apply andb_prop in C as [C C2]. apply andb_prop in C as [Lo _].
    unfold Os.is_cont in C2. apply andb_prop in C2 as [C2 _].
    apply N.leb_le in Lo, C2.
    destruct (N.eqb_spec x0 224); lia.
  - destruct ((240 <=? x0) && (x0 <=? 244))%N eqn:W; [|discriminate].
    cbn [andb].
    match goal with
    | |- (if ?c then _ else _) = _ -> _ => destruct c eqn:C; [|discriminate]
    end.
    intros H. inversion H.
    apply andb_prop in W as [W _]. apply N.leb_le in W.
    apply andb_prop in C as [C C3]. apply andb_prop in C as [C C2].
    apply andb_prop in C as [Lo _].
    unfold Os.is_cont in C2, C3.
    apply andb_prop in C2 as [C2 _]. apply andb_prop in C3 as [C3 _].
    apply N.leb_le in Lo, C2, C3.
    destruct (N.eqb_spec x0 240); lia.
Qed.

Lemma to_N_inj (a b : Byte.byte) : Byte.to_N a = Byte.to_N b -> a = b.
Proof.
  intros H. pose proof (Byte.of_to_N a) as Ha.
  rewrite H, Byte.of_to_N in Ha. congruence.
Qed.

Lemma high_not_lf (b : Byte.byte) :
  (Byte.to_N b <? 128)%N = false -> crlf_byte b = [b].
Proof.
  intros H. unfold crlf_byte. destruct (Byte.eqb b Byte.x0a) eqn:E;
    [|reflexivity].
  apply Byte.byte_dec_bl in E. subst b. discriminate H.
Qed.

Lemma take_high_crlf (n : nat) :
  forall r,
    take_high n (to_crlf r) =
    match take_high n r with
    | Some (cs, rest) => Some (cs, to_crlf rest)
    | None => None
    end.
Proof.
  induction n as [|n IH]; intros r; [reflexivity|].
  destruct r as [|b r]; [reflexivity|].
  unfold to_crlf. cbn [flat_map]. fold (to_crlf r).
  cbn [take_high]. destruct (high b) eqn:Hb.
  - rewrite high_not_lf.
    + cbn [app take_high]. rewrite Hb, IH.
      destruct (take_high n r) as [[cs rest]|]; reflexivity.
    + unfold high in Hb. apply N.leb_le in Hb. apply N.ltb_ge. exact Hb.
  - unfold crlf_byte. destruct (Byte.eqb b Byte.x0a); cbn [app take_high].
    + reflexivity.
    + rewrite Hb. reflexivity.
Qed.

Lemma crlf_char_other (c : codepoint) : c <> 10%N -> crlf_char c = [c].
Proof.
  intros H. unfold crlf_char. apply N.eqb_neq in H. rewrite H. reflexivity.
Qed.

(** Decoding commutes with the change of line endings. *)
Lemma decode_crlf (bs : list Byte.byte) :
  Os.utf8_decode (to_crlf bs) = option_map crlf_text (Os.utf8_decode bs).
Proof.
  induction bs as [|b0 r0 Hlow IH|b0 r0 Hhigh IH] using decode_induction.
  - reflexivity.
  - unfold to_crlf. cbn [flat_map]. fold (to_crlf r0).
    rewrite (decode_view b0 r0). cbv zeta. rewrite Hlow.
    unfold crlf_byte. destruct (Byte.eqb b0 Byte.x0a) eqn:E.
    + apply Byte.byte_dec_bl in E. subst b0.
      cbn [app]. rewrite decode_view. cbv zeta.
      change (Byte.to_N Byte.x0d) with 13%N. cbn [N.ltb N.compare Pos.compare
        Pos.compare_cont].
      rewrite decode_view. cbv zeta.
      change (Byte.to_N Byte.x0a) with 10%N. cbn [N.ltb N.compare Pos.compare
        Pos.compare_cont].
      rewrite IH. destruct (Os.utf8_decode r0); reflexivity.
    + cbn [app]. rewrite decode_view. cbv zeta. rewrite Hlow, IH.
      destruct (Os.utf8_decode r0) as [s|]; [|reflexivity].
      cbn [option_map crlf_text flat_map]. rewrite crlf_char_other;
        [reflexivity|].
      intros H. apply Byte.eqb_false in E. apply E.
      apply to_N_inj. rewrite H. reflexivity.
  - unfold to_crlf. cbn [flat_map]. fold (to_crlf r0).
    rewrite (high_not_lf b0 Hhigh). cbn [app].
    rewrite !decode_view. cbv zeta. rewrite Hhigh.
    destruct (width (Byte.to_N b0)) as [|n] eqn:W; [reflexivity|].
    rewrite take_high_crlf.
    destruct (take_high (S n) r0) as [[cs rest]|] eqn:T; [|reflexivity].
    destruct (sequence_value (Byte.to_N b0) cs) as [c|] eqn:V; [|reflexivity].
    rewrite (IH cs rest eq_refl).
    destruct (Os.utf8_decode rest) as [s|]; [|reflexivity].
    cbn [option_map crlf_text flat_map]. rewrite crlf_char_other;
      [reflexivity|].
    apply sequence_value_high in V. lia.
Qed.

(** A carriage return in the text comes from a carriage return octet. *)
Lemma decode_no_cr (bs : list Byte.byte) :
  forall s,
    Os.utf8_decode bs = Some s -> ~ In Byte.x0d bs -> ~ In 13%N s.
Proof.
  induction bs as [|b0 r0 Hlow IH|b0 r0 Hhigh IH] using decode_induction;
    intros s Hd Hcr.
  - inversion Hd. intros [].
  - rewrite decode_view in Hd. cbv zeta in Hd. rewrite Hlow in Hd.
    destruct (Os.utf8_decode r0) as [s'|]; [|discriminate].
    inversion Hd; subst s. intros [H|H].
    + apply Hcr. left. apply to_N_inj. rewrite H. reflexivity.
    + revert H. apply IH; [reflexivity|]. intros H. apply Hcr. right. exact H.
  - rewrite decode_view in Hd. cbv zeta in Hd. rewrite Hhigh in Hd.
    destruct (width (Byte.to_N b0)) as [|n]; [discriminate|].
    destruct (take_high (S n) r0) as [[cs rest]|] eqn:T; [|discriminate].
    destruct (sequence_value (Byte.to_N b0) cs) as [c|] eqn:V; [|discriminate].
    destruct (Os.utf8_decode rest) as [s'|] eqn:D; [|discriminate].
    inversion Hd; subst s. intros [H|H].
    + apply sequence_value_high in V. lia.
    + revert H. apply (IH cs rest eq_refl s' D).
      destruct (take_high_suffix _ _ _ _ T) as [pre [E _]].
      intros H. apply Hcr. right. rewrite E. apply in_or_app. right. exact H.
Qed.

Lemma universal_newlines_crlf (s : str) :
  ~ In 13%N s ->
  Os.universal_newlines (crlf_text s) = s /\ Os.universal_newlines s = s.
Proof.
  induction s as [|c s IH]; intros H; [split; reflexivity|].
  assert (Hc : c <> 13%N) by (intros ->; apply H; left; reflexivity).
  destruct IH as [IH1 IH2]; [intros X; apply H; right; exact X|].
  apply N.eqb_neq in Hc. split.
  - cbn [crlf_text flat_map]. fold (crlf_text s). unfold crlf_char.
    destruct (N.eqb_spec c 10) as [->|Hn].
    + cbn [app Os.universal_newlines N.eqb Pos.eqb]. rewrite IH1. reflexivity.
    + cbn [app Os.universal_newlines]. rewrite Hc, IH1. reflexivity.
  - cbn [Os.universal_newlines]. rewrite Hc, IH2. reflexivity.
Qed.

(** X16.  Line endings do not matter: a file without carriage returns and
    the same file with every line feed turned into carriage return and line
    feed give the same outcome on one standard output, be it the output,
    an encoding failure or a decoding failure. *)
Theorem line_endings_do_not_matter (w w' : Os.world) (bs : list Byte.byte) :
  ~ In Byte.x0d bs ->
  Os.fs w source_path = Os.Regular bs ->
  Os.fs w' source_path = Os.Regular (to_crlf bs) ->
  Os.stdout_codec w' = Os.stdout_codec w ->
  main w' = main w.
Proof.
  intros Hcr Hw Hw' Hcod. unfold main, Os.read_text. rewrite Hcod.
  rewrite Hw, Hw', decode_crlf.
  destruct (Os.utf8_decode bs) as [s|] eqn:D; [|reflexivity].
  cbn [option_map].
  destruct (universal_newlines_crlf s (decode_no_cr bs s D Hcr)) as [E1 E2].
  rewrite E1, E2. reflexivity.
Qed.

Lemma line_endings_do_not_matter_witness :
  let bs :=
    list_byte_of_string "{ key: 'A'," ++ [Byte.x0a]
    ++ list_byte_of_string "  name: 'n'," ++ [Byte.x0a]
    ++ list_byte_of_string "  description: 'd'," ++ [Byte.x0a] in
  ~ In Byte.x0d bs
  /\ In Byte.x0d (to_crlf bs)
  /\ main (world_with (to_crlf bs)) = main (world_with bs).
Proof.
  intros bs.
  assert (H : ~ In Byte.x0d bs).
  { vm_compute. intros H.
    repeat (destruct H as [H|H]; [discriminate H|]). exact H. }
  split; [exact H|]. split; [vm_compute; tauto|].
  exact (line_endings_do_not_matter (world_with bs) (world_with (to_crlf bs))
           bs H eq_refl eq_refl eq_refl).
Defined.

Lemma generated_keys_do_not_collide_witness :
  name_key (Py.lit "A") = name_key (Py.lit "A")
  /\ Py.lit "A" = Py.lit "A"
  /\ name_key (Py.lit "A.description") <> description_key (Py.lit "A").
Proof.
  assert (H : name_key (Py.lit "A") = name_key (Py.lit "A")) by reflexivity.
  split; [exact H|]. split.
  - exact (proj1 (proj1 (generated_keys_do_not_collide (Py.lit "A")
                           (Py.lit "A"))) H).
  - exact (proj2 (proj2 (generated_keys_do_not_collide
                           (Py.lit "A.description") (Py.lit "A")))).
Defined.

Lemma escaping_is_lossless_witness :
  let k := [10; 34; 92; 1; 21517]%N in
  Json.encode_basestring k = Json.encode_basestring k
  /\ unescape (List.flat_map Json.escape_char k) = Some k
  /\ List.flat_map Json.escape_char k
     = Py.lit "\n" ++ [92; 34]%N ++ Py.lit "\\\u0001" ++ [21517%N].
Proof.
  intros k. split; [reflexivity|]. split; [|reflexivity].
  exact (proj1 escaping_is_lossless k).
Defined.
